(** * cma-data-pipeline: the ETL of [ingest.py], embedded and verified

    The pipeline of [src/ingest.py] is embedded stage by stage:
    [standardise_columns], the schema check of [main], [coerce_types],
    [validate], [dedupe], [enrich], [quality_stats] and [main] itself.

    Modelling conventions.
    - A cell of the listings frame is [option string]: the text of the cell,
      or [None] for a missing value (NaN / <NA>).  A numeric cell is
      represented by its text.
    - Text is ASCII: [strip], [lower] and [title] are the restrictions of
      Python's [str.strip], [str.lower] and [str.title] to code points below
      128; larger codes are neither white space nor cased.
    - [pd.to_datetime(.., errors="coerce", format="%Y-%m-%d")] and
      [pd.to_numeric(.., errors="coerce")] work cell by cell and are
      parameters of the development: any functions from cells to optional
      values.  A timestamp is an integer, a price an exact rational (the
      rounding of binary floating point is not modelled).
    - A frame is the list of its rows.  The lookup frame has the two text
      columns [category] and [segment].
    - [main] gives the schema exit and the result of a run that reaches its
      report.  The exceptions pandas raises on the way are not modelled: a
      label repeated after standardisation, a listings column [segment], a
      lookup whose categories are not text, a price column read as booleans
      (its quantile raises).  The statements on [Completed] are about the
      runs that complete.
    - Only the order of prices is exact: the mean and the percentiles of
      [quality_stats] are written over the rationals, where the program
      rounds in binary floating point, and nothing is proved of their
      values. *)

From Stdlib Require Import Ascii String QArith Qround Sorted Permutation.
From stdpp Require Import gmap strings list fin_maps sorting.

Local Open Scope string_scope.
Local Open Scope list_scope.

(** ** Text: [str.strip], [str.lower], [str.title] on ASCII *)

Module Text.

Definition code (c : ascii) : N := N_of_ascii c.

(** [str.isspace] below 128: TAB, LF, VT, FF, CR, the separators 28-31 and
    the blank. *)
Definition isspace (c : ascii) : bool :=
  ((9 <=? code c) && (code c <=? 13) || (28 <=? code c) && (code c <=? 32))%N.

Definition isupper (c : ascii) : bool := ((65 <=? code c) && (code c <=? 90))%N.
Definition islower (c : ascii) : bool := ((97 <=? code c) && (code c <=? 122))%N.

Definition to_lower (c : ascii) : ascii :=
  if isupper c then ascii_of_N (code c + 32) else c.
Definition to_upper (c : ascii) : ascii :=
  if islower c then ascii_of_N (code c - 32) else c.

Fixpoint lstrip (s : string) : string :=
  match s with
  | String c s' => if isspace c then lstrip s' else s
  | EmptyString => EmptyString
  end.

Fixpoint rstrip (s : string) : string :=
  match s with
  | String c s' =>
      match rstrip s' with
      | EmptyString => if isspace c then EmptyString else String c EmptyString
      | r => String c r
      end
  | EmptyString => EmptyString
  end.

(** [s.strip()] *)
Definition strip (s : string) : string := rstrip (lstrip s).

(** [s.lower()] *)
Fixpoint lower (s : string) : string :=
  match s with
  | String c s' => String (to_lower c) (lower s')
  | EmptyString => EmptyString
  end.

(** [s.title()]: a cased character that follows an uncased one (or starts
    the string) is upper-cased, one that follows a cased character is
    lower-cased; [prev] is CPython's [previous_is_cased]. *)
Fixpoint title_from (prev : bool) (s : string) : string :=
  match s with
  | String c s' =>
      if islower c then String (if prev then c else to_upper c) (title_from true s')
      else if isupper c then String (if prev then to_lower c else c) (title_from true s')
      else String c (title_from false s')
  | EmptyString => EmptyString
  end.

Definition title (s : string) : string := title_from false s.

(** The character [title] writes for [c], and whether [c] is cased. *)
Definition title_char (prev : bool) (c : ascii) : ascii :=
  if islower c then (if prev then c else to_upper c)
  else if isupper c then (if prev then to_lower c else c) else c.

Definition cased (c : ascii) : bool := islower c || isupper c.

End Text.

(** ** Three-way comparisons and their lexicographic products

    [sort_values] orders rows by a tuple of keys; each key has a three-way
    comparison, missing values last ([na_position="last"]). *)

Class Comparison {A : Type} (cmp : A -> A -> comparison) : Prop := {
  cmp_sym : forall x y, cmp y x = CompOpp (cmp x y);
  cmp_trans : forall c x y z, cmp x y = c -> cmp y z = c -> cmp x z = c
}.

(** Missing values sort after every present one and are tied together. *)
Definition cmp_opt {A : Type} (cmp : A -> A -> comparison) (x y : option A) : comparison :=
  match x, y with
  | Some a, Some b => cmp a b
  | Some _, None => Lt
  | None, Some _ => Gt
  | None, None => Eq
  end.

(** Compare by [f] first, and by [g] when [f] ties. *)
Definition cmp_lex {A : Type} (f g : A -> A -> comparison) (x y : A) : comparison :=
  match f x y with
  | Eq => g x y
  | c => c
  end.

(** Compare the images under a key function. *)
Definition cmp_on {A B : Type} (key : A -> B) (cmp : B -> B -> comparison) (x y : A) : comparison :=
  cmp (key x) (key y).

(** ** [sort_values(.., kind="stable")] and [drop_duplicates(.., keep="first")]

    Any stable sort returns the same list; insertion from the right is the
    one written here. *)

Section SortAndDrop.
Context {A : Type} (cmp : A -> A -> comparison).

Definition leb (x y : A) : bool := match cmp x y with Gt => false | _ => true end.

(** [r] goes before the first element that is not smaller than it, so
    before the rows tied with it: they came later in the input. *)
Fixpoint insert (r : A) (l : list A) : list A :=
  match l with
  | [] => [r]
  | x :: l' => if leb r x then r :: l else x :: insert r l'
  end.

Definition stable_sort (l : list A) : list A := fold_right insert [] l.

(** [drop_duplicates(subset=key, keep="first")]: one pass with the set of
    the keys seen so far. *)
Context {K : Type} `{Countable K} (key : A -> K).

Fixpoint drop_seen (seen : gset K) (l : list A) : list A :=
  match l with
  | [] => []
  | r :: l' =>
      if decide (key r ∈ seen) then drop_seen seen l'
      else r :: drop_seen ({[key r]} ∪ seen) l'
  end.

Definition drop_duplicates (l : list A) : list A := drop_seen ∅ l.

End SortAndDrop.

(** ** Frames *)

(** A cell: its text, or [None] when the value is missing. *)
Definition cell : Type := option string.

(** The listings frame as read: its labels and its rows, each row aligned
    with the labels (a short row is padded with missing cells). *)
Record raw_frame := { columns : list string; rows : list (list cell) }.

Definition REQUIRED_COLS : list string :=
  ["date"; "seller_id"; "region"; "category"; "item_id"; "price_gbp"; "condition"].
Definition VALID_REGIONS : gset string := {["North"; "South"; "East"; "West"]}.
Definition VALID_CONDITION : gset string := {["new"; "used"; "refurbished"]}.

(** [df.columns = [c.strip().lower() for c in df.columns]] *)
Definition standardise_columns (df : raw_frame) : raw_frame :=
  {| columns := List.map (fun c => Text.lower (Text.strip c)) (columns df);
     rows := rows df |}.

(** [[c for c in REQUIRED_COLS if c not in df_raw.columns]] *)
Definition missing_cols (df : raw_frame) : list string :=
  List.filter (fun c => negb (bool_decide (c ∈ columns df))) REQUIRED_COLS.

Fixpoint position (c : string) (labels : list string) : option nat :=
  match labels with
  | [] => None
  | l :: labels' => if String.eqb c l then Some O else S <$> position c labels'
  end.

(** The cell of row [r] under label [c]. *)
Definition at_label (labels : list string) (r : list cell) (c : string) : cell :=
  match position c labels with
  | Some i => default None (r !! i)
  | None => None
  end.

(** A row of the typed frame: the seven required columns and the two
    parsed ones.  Other columns of the input ride along untouched until the
    final selection drops them, and are left out. *)
Record typed_row := {
  date : cell;
  seller_id : cell;
  region : cell;
  category : cell;
  item_id : cell;
  price_gbp : cell;
  condition : cell;
  date_parsed : option Z;
  price_gbp_num : option Q
}.

(** [df[c]] on the typed frame, for the labels of [REQUIRED_COLS]. *)
Definition column (c : string) (r : typed_row) : cell :=
  if String.eqb c "date" then date r
  else if String.eqb c "seller_id" then seller_id r
  else if String.eqb c "region" then region r
  else if String.eqb c "category" then category r
  else if String.eqb c "item_id" then item_id r
  else if String.eqb c "price_gbp" then price_gbp r
  else if String.eqb c "condition" then condition r
  else None.

(** [date] and [price_gbp] keep the dtype they were read with, where a
    missing value prints as [nan]; the five columns that [coerce_types] casts
    have the [string] dtype, where it prints as [<NA>]. *)
Definition na_text (c : string) : string :=
  if String.eqb c "date" || String.eqb c "price_gbp" then "nan" else "<NA>".

(** [.astype(str)] *)
Definition astype_str (na : string) (v : cell) : string := default na v.

Definition isna {A : Type} (v : option A) : bool := if v is Some _ then false else true.
Definition notna {A : Type} (v : option A) : bool := negb (isna v).

(** [.isin(values)]: a missing value is in no set. *)
Definition isin (v : cell) (values : gset string) : bool :=
  match v with
  | Some s => bool_decide (s ∈ values)
  | None => false
  end.

(** [series <= 0] on a float column: false on a missing value. *)
Definition le_zero (v : option Q) : bool :=
  match v with
  | Some p => Qle_bool p 0
  | None => false
  end.

(** [series != ""] on the [string] dtype: missing on a missing value. *)
Definition ne_empty (v : cell) : option bool :=
  (fun s => negb (String.eqb s "")) <$> v.

(** Boolean masks: a plain boolean is [Some b]; the nullable dtype adds
    [None] for <NA>.  [&] and [~] follow Kleene's logic. *)
Definition kand (a b : option bool) : option bool :=
  match a, b with
  | Some false, _ | _, Some false => Some false
  | Some true, Some true => Some true
  | _, _ => None
  end.

Definition knot (a : option bool) : option bool := negb <$> a.

(** [df[mask]]: a row is kept when its mask is true; <NA> counts as false. *)
Fixpoint select {A : Type} (mask : list (option bool)) (df : list A) : list A :=
  match mask, df with
  | m :: mask', r :: df' =>
      if m is Some true then r :: select mask' df' else select mask' df'
  | _, _ => []
  end.

(** [int(mask.sum())] *)
Definition tally {A : Type} (p : A -> bool) (df : list A) : nat := length (List.filter p df).

Record issues := {
  missing_nulls : list (string * nat);
  missing_empty : list (string * nat);
  invalid_date : nat;
  invalid_price : nat;
  invalid_region : nat;
  invalid_condition : nat
}.

(** *** [validate] *)

Definition is_invalid_date (r : typed_row) : bool := isna (date_parsed r).
Definition is_invalid_price (r : typed_row) : bool :=
  isna (price_gbp_num r) || le_zero (price_gbp_num r).
Definition is_invalid_region (r : typed_row) : bool := negb (isin (region r) VALID_REGIONS).
Definition is_invalid_condition (r : typed_row) : bool :=
  negb (isin (condition r) VALID_CONDITION).

(** The two dictionaries of counts, in the order of [REQUIRED_COLS]; their
    guard [if c in df.columns] holds of the seven labels on the typed
    frame. *)
Definition null_counts (df : list typed_row) : list (string * nat) :=
  List.map (fun c => (c, tally (fun r => isna (column c r)) df)) REQUIRED_COLS.

Definition empty_counts (df : list typed_row) : list (string * nat) :=
  List.map (fun c =>
    (c, tally (fun r => String.eqb (Text.strip (astype_str (na_text c) (column c r))) "") df))
    REQUIRED_COLS.

Definition essential : list string := ["date"; "seller_id"; "category"; "item_id"; "price_gbp"].

(** One turn of the loop over [essential], on the mask entry of row [r]. *)
Definition require_essential (r : typed_row) (m : option bool) (c : string) : option bool :=
  let m1 := kand m (Some (negb (isna (column c r)))) in
  let m2 := kand m1 (Some (notna (Text.strip <$> column c r))) in
  kand m2 (ne_empty (Text.strip <$> column c r)).

Definition mask_valid (r : typed_row) : option bool :=
  let m := Some (negb (is_invalid_date r) && negb (is_invalid_price r)
                 && negb (is_invalid_region r) && negb (is_invalid_condition r)) in
  fold_left (require_essential r) essential m.

Definition validate (df : list typed_row) : list (option bool) * issues :=
  (List.map mask_valid df,
   {| missing_nulls := null_counts df;
      missing_empty := empty_counts df;
      invalid_date := tally is_invalid_date df;
      invalid_price := tally is_invalid_price df;
      invalid_region := tally is_invalid_region df;
      invalid_condition := tally is_invalid_condition df |}).

(** *** [dedupe] *)

(** The order of [sort_values(["date_parsed","seller_id","item_id","price_gbp_num"])]. *)
Definition sort_cmp : typed_row -> typed_row -> comparison :=
  cmp_lex (cmp_on date_parsed (cmp_opt Z.compare))
    (cmp_lex (cmp_on seller_id (cmp_opt String.compare))
       (cmp_lex (cmp_on item_id (cmp_opt String.compare))
          (cmp_on price_gbp_num (cmp_opt Qcompare)))).

(** The natural key, [subset=["date_parsed","seller_id","item_id"]]. *)
Definition natural_key (r : typed_row) : option Z * cell * cell :=
  (date_parsed r, seller_id r, item_id r).

Definition dedupe (df : list typed_row) : list typed_row * nat :=
  let before := length df in
  let df := stable_sort sort_cmp df in
  let df := drop_duplicates natural_key df in
  let removed := (before - length df)%nat in
  (df, removed).

(** *** [enrich] *)

Record lookup_row := { lk_category : cell; lk_segment : cell }.

Record enriched_row := { listing : typed_row; segment : cell }.

(** [df.merge(lookup, how="left", on="category")]: every left row, in
    order, once per right row with the same key (missing keys match each
    other), or once with a missing [segment] when there is none. *)
Definition merge_left (df : list typed_row) (lookup : list lookup_row) : list enriched_row :=
  flat_map (fun r =>
    match List.filter (fun l => bool_decide (lk_category l = category r)) lookup with
    | [] => [ {| listing := r; segment := None |} ]
    | matches => List.map (fun l => {| listing := r; segment := lk_segment l |}) matches
    end) df.

Definition enrich (df : list typed_row) (lookup : list lookup_row) : list enriched_row :=
  let lookup := List.map (fun l => {| lk_category := Text.title <$> lk_category l;
                                      lk_segment := lk_segment l |}) lookup in
  merge_left df lookup.

(** *** [quality_stats] *)

(** A row of the clean output: [out_cols], after the renaming of
    [date_parsed] to [date] and of [price_gbp_num] to [price_gbp]. *)
Record out_row := {
  o_date : option Z;
  o_seller_id : cell;
  o_region : cell;
  o_category : cell;
  o_segment : cell;
  o_item_id : cell;
  o_price_gbp : option Q;
  o_condition : cell
}.

(** What [quality_stats] reads of its frame.  [sf_price] is [inl] of the
    column [price_gbp] when the frame has one and [inr] of [price_gbp_num]
    otherwise; [sf_segment] is [None] when there is no column [segment]. *)
Record stats_frame := {
  sf_len : nat;
  sf_price : list (option Q) + list (option Q);
  sf_region : list cell;
  sf_category : list cell;
  sf_segment : option (list cell)
}.

Record price_stats := {
  p_min : option Q;
  p_max : option Q;
  p_avg : option Q;
  p_p50 : option Q;
  p_p95 : option Q
}.

Record quality := {
  row_count : nat;
  price : price_stats;
  by_region : gmap cell nat;
  by_category : gmap cell nat;
  by_segment : gmap cell nat
}.

(** [.dropna()] *)
Definition dropna {A : Type} (col : list (option A)) : list A := omap id col.

Definition qmin (a b : Q) : Q := if Qle_bool a b then a else b.
Definition qmax (a b : Q) : Q := if Qle_bool a b then b else a.

(** [.min()], [.max()], [.mean()] of a series with at least one value
    ([x] is its first value).  The minimum and the maximum only compare; the
    mean is the exact one, which the program rounds. *)
Definition series_min (x : Q) (l : list Q) : Q := fold_left qmin l x.
Definition series_max (x : Q) (l : list Q) : Q := fold_left qmax l x.
Definition series_sum (l : list Q) : Q := fold_left Qplus l 0%Q.
Definition series_mean (l : list Q) : Q := (series_sum l / inject_Z (Z.of_nat (length l)))%Q.

(** numpy's interpolation between two neighbours, [a + (b - a) * t], taken
    from the upper end when [t >= 0.5]. *)
Definition lerp (a b t : Q) : Q :=
  if Qle_bool (1 # 2) t then (b - (b - a) * (1 - t))%Q else (a + (b - a) * t)%Q.

(** [.quantile(q)], with the default [interpolation="linear"]: the value
    at the virtual index [q * (n - 1)] of the sorted series, in exact
    arithmetic (the program computes the index and the value in floating
    point). *)
Definition quantile (q : Q) (l : list Q) : Q :=
  let sorted := stable_sort Qcompare l in
  let n := length l in
  let virtual := (q * inject_Z (Z.of_nat (n - 1)))%Q in
  let previous := Z.to_nat (Qfloor virtual) in
  let next := Nat.min (S previous) (n - 1) in
  let gamma := (virtual - inject_Z (Qfloor virtual))%Q in
  lerp (nth previous sorted 0%Q) (nth next sorted 0%Q) gamma.

(** [.value_counts(dropna=False).to_dict()]: missing values are a key like
    the others. *)
Definition value_counts (col : list cell) : gmap cell nat :=
  fold_right (fun v m => <[v := S (default O (m !! v))]> m) ∅ col.

Definition quality_stats (df : stats_frame) : quality :=
  let price := dropna (match sf_price df with inl col => col | inr col => col end) in
  let stat (f : list Q -> Q) : option Q :=
    if price is [] then None else Some (f price) in
  {| row_count := sf_len df;
     price := {| p_min := stat (fun l => series_min (hd 0%Q l) l);
                 p_max := stat (fun l => series_max (hd 0%Q l) l);
                 p_avg := stat series_mean;
                 p_p50 := stat (quantile (1 # 2));
                 p_p95 := stat (quantile (95 # 100)) |};
     by_region := value_counts (sf_region df);
     by_category := value_counts (sf_category df);
     by_segment := if sf_segment df is Some col then value_counts col else ∅ |}.

(** *** [main] *)

Record dq_report := {
  input_rows : nat;
  validation_issues : issues;
  rows_removed_invalid : nat;
  rows_removed_duplicates : nat;
  output : quality
}.

(** What a completed run writes: the clean table, the report, and the
    rejected rows.  An outcome is the exit of the schema check or a
    completed run; a run that pandas interrupts with an exception has no
    outcome here. *)
Record run := {
  clean : list out_row;
  report : dq_report;
  invalid_rows : list typed_row
}.

Inductive outcome :=
  | SystemExit (missing : list string)
  | Completed (r : run).

(** [df_enriched[out_cols].rename(columns=rename)] *)
Definition select_out (r : enriched_row) : out_row :=
  {| o_date := date_parsed (listing r);
     o_seller_id := seller_id (listing r);
     o_region := region (listing r);
     o_category := category (listing r);
     o_segment := segment r;
     o_item_id := item_id (listing r);
     o_price_gbp := price_gbp_num (listing r);
     o_condition := condition (listing r) |}.

(** The clean table as [quality_stats] sees it. *)
Definition frame_of (df : list out_row) : stats_frame :=
  {| sf_len := length df;
     sf_price := inl (List.map o_price_gbp df);
     sf_region := List.map o_region df;
     sf_category := List.map o_category df;
     sf_segment := Some (List.map o_segment df) |}.

Section Pipeline.
(** [pd.to_datetime(.., errors="coerce", format="%Y-%m-%d")] and
    [pd.to_numeric(.., errors="coerce")], cell by cell. *)
Variable to_datetime : cell -> option Z.
Variable to_numeric : cell -> option Q.

Definition coerce_row (labels : list string) (r : list cell) : typed_row :=
  let raw := at_label labels r in
  let text c := Text.strip <$> raw c in
  {| date := raw "date";
     seller_id := text "seller_id";
     region := Text.title <$> text "region";
     category := Text.title <$> text "category";
     item_id := text "item_id";
     price_gbp := raw "price_gbp";
     condition := Text.lower <$> text "condition";
     date_parsed := to_datetime (raw "date");
     price_gbp_num := to_numeric (raw "price_gbp") |}.

Definition coerce_types (df : raw_frame) : list typed_row :=
  List.map (coerce_row (columns df)) (rows df).

Definition main (listings : raw_frame) (lk : list lookup_row) : outcome :=
  let df_raw := standardise_columns listings in
  match missing_cols df_raw with
  | (_ :: _) as missing => SystemExit missing
  | [] =>
      let df_typed := coerce_types df_raw in
      let '(valid_mask, issues) := validate df_typed in
      let df_invalid := select (List.map knot valid_mask) df_typed in
      let df_valid := select valid_mask df_typed in
      let '(df_valid, dup_removed) := dedupe df_valid in
      let df_enriched := enrich df_valid lk in
      let df_out := List.map select_out df_enriched in
      Completed
        {| clean := df_out;
           report := {| input_rows := length (rows df_raw);
                        validation_issues := issues;
                        rows_removed_invalid := length df_invalid;
                        rows_removed_duplicates := dup_removed;
                        output := quality_stats (frame_of df_out) |};
           invalid_rows := df_invalid |}
  end.
End Pipeline.

(** ** An instance of the two parsers, and the scenarios of the specification

    The theorems below hold for every pair of parsers.  The instance here
    reads a date written [YYYY-MM-DD] as the number [YYYYMMDD], and a price
    written with digits, an optional sign and an optional fraction; it
    serves the worked examples. *)

Module Sample.

Definition digit (c : ascii) : option Z :=
  let n := Text.code c in
  if ((48 <=? n) && (n <=? 57))%N then Some (Z.of_N n - 48)%Z else None.

Fixpoint digits (acc : Z) (s : string) : option Z :=
  match s with
  | EmptyString => Some acc
  | String c s' => d ← digit c; digits (10 * acc + d) s'
  end.

Definition number (s : string) : option Z :=
  if String.eqb s "" then None else digits 0 s.

Definition to_datetime (v : cell) : option Z :=
  s ← v;
  if negb (Nat.eqb (String.length s) 10) then None else
  if negb (String.eqb (substring 4 1 s) "-" && String.eqb (substring 7 1 s) "-") then None else
  y ← number (substring 0 4 s);
  m ← number (substring 5 2 s);
  d ← number (substring 8 2 s);
  if ((1 <=? m) && (m <=? 12) && (1 <=? d) && (d <=? 31))%Z
  then Some (y * 10000 + m * 100 + d)%Z else None.

Fixpoint split_dot (s : string) : string * option string :=
  match s with
  | EmptyString => (EmptyString, None)
  | String c s' =>
      if Ascii.eqb c "."%char then (EmptyString, Some s')
      else let '(a, b) := split_dot s' in (String c a, b)
  end.

Definition unsigned (s : string) : option Q :=
  let '(whole, frac) := split_dot s in
  w ← number whole;
  match frac with
  | None => Some (inject_Z w)
  | Some f =>
      k ← number f;
      Some (Qred (Qmake (w * 10 ^ Z.of_nat (String.length f) + k)
                        (Z.to_pos (10 ^ Z.of_nat (String.length f)))))
  end.

Definition to_numeric (v : cell) : option Q :=
  s ← v;
  match Text.strip s with
  | String "-" s' => Qopp <$> unsigned s'
  | s' => unsigned s'
  end.

Definition labels : list string :=
  ["Date"; " seller_id"; "REGION"; "category"; "item_id"; "price_gbp "; "Condition"].

Definition listing (d s r c i p k : string) : list cell :=
  [Some d; Some s; Some r; Some c; Some i; Some p; Some k].

Definition lookup : list lookup_row :=
  [ {| lk_category := Some "tools"; lk_segment := Some "DIY" |};
    {| lk_category := Some "Toys"; lk_segment := Some "Kids" |} ].

Definition table : raw_frame :=
  {| columns := labels;
     rows := [ listing "2024-01-05" "S1" "north" "Tools" "I1" "19.99" "new";
               listing "2024-01-05" "S2" "South" "toys" "I2" "-5" "used";
               listing "2024-01-06" "S3" "East" "Tools" "I3" "12.00" "USED";
               listing "2024-01-06" "S3" "east" "tools" "I3" "10.00" "used";
               listing "2024-01-07" "S4" "West" "Gadgets" "I4" "7.5" "refurbished";
               listing "07/01/2024" "S5" "West" "Toys" "I5" "abc" "broken" ] |}.

Definition run_table : outcome := main to_datetime to_numeric table lookup.

(** A lookup with the category [Tools] twice, once in lower case. *)
Definition twice : list lookup_row :=
  [ {| lk_category := Some "Tools"; lk_segment := Some "DIY" |};
    {| lk_category := Some "tools"; lk_segment := Some "Hardware" |} ].


(** A frame without the columns [price_gbp] and [condition]. *)
Definition short_table : raw_frame :=
  {| columns := ["date"; "Seller_ID "; "region"; "category"; "item_id"];
     rows := [ [Some "2024-01-05"; Some "S1"; Some "North"; Some "Tools"; Some "I1"];
               [Some "not a date"; None; None; None; None] ] |}.

(** A frame with the seven columns and no row. *)
Definition header_only : raw_frame := {| columns := labels; rows := [] |}.


(** A lookup row whose category starts with a blank. *)
Definition blank_tools : lookup_row :=
  {| lk_category := Some " Tools"; lk_segment := Some "DIY" |}.

(** A row whose raw date and price carry blanks around them. *)
Definition padded : list cell :=
  listing " 2024-01-05 " " S1 " " north " " tools " " I1 " " 19.99 " " NEW ".

End Sample.

(** ** The rules of the specification, in its words

    [spec_valid] is the validity of section 4.2; [fails] says when a row
    breaks one rule of the tally, and [tally_of] reads the count of a rule
    in the issues of [validate]. *)

Definition present_nonblank (v : cell) : Prop :=
  exists s, v = Some s /\ Text.strip s <> "".

Definition spec_valid (r : typed_row) : Prop :=
  is_Some (date_parsed r) /\
  (exists p, price_gbp_num r = Some p /\ (0 < p)%Q) /\
  (exists s, region r = Some s /\ s ∈ VALID_REGIONS) /\
  (exists s, condition r = Some s /\ s ∈ VALID_CONDITION) /\
  present_nonblank (date r) /\
  present_nonblank (seller_id r) /\
  present_nonblank (category r) /\
  present_nonblank (item_id r) /\
  present_nonblank (price_gbp r).

Inductive rule :=
  | InvalidDate
  | InvalidPrice
  | InvalidRegion
  | InvalidCondition
  | MissingNull (c : string)
  | MissingEmpty (c : string).

Definition fails (r : typed_row) (ρ : rule) : Prop :=
  match ρ with
  | InvalidDate => date_parsed r = None
  | InvalidPrice => ~ exists p, price_gbp_num r = Some p /\ (0 < p)%Q
  | InvalidRegion => ~ exists s, region r = Some s /\ s ∈ VALID_REGIONS
  | InvalidCondition => ~ exists s, condition r = Some s /\ s ∈ VALID_CONDITION
  | MissingNull c => column c r = None
  | MissingEmpty c => exists s, column c r = Some s /\ Text.strip s = ""
  end.

Fixpoint assoc (c : string) (l : list (string * nat)) : option nat :=
  match l with
  | [] => None
  | (k, n) :: l' => if String.eqb c k then Some n else assoc c l'
  end.

Definition tally_of (i : issues) (ρ : rule) : option nat :=
  match ρ with
  | InvalidDate => Some (invalid_date i)
  | InvalidPrice => Some (invalid_price i)
  | InvalidRegion => Some (invalid_region i)
  | InvalidCondition => Some (invalid_condition i)
  | MissingNull c => assoc c (missing_nulls i)
  | MissingEmpty c => assoc c (missing_empty i)
  end.

(** The rules that have a tally: the four checks, and the two counts of
    each required column. *)
Definition tallied (ρ : rule) : Prop :=
  match ρ with
  | MissingNull c | MissingEmpty c => In c REQUIRED_COLS
  | _ => True
  end.

(** The rules a valid row must pass: the four checks, and the two counts of
    each essential column. *)
Definition gating (ρ : rule) : Prop :=
  match ρ with
  | MissingNull c | MissingEmpty c => In c essential
  | _ => True
  end.

(** The conjunction that [validate] computes, as one boolean. *)
Definition nonblank (v : cell) : bool :=
  match v with
  | Some s => negb (String.eqb (Text.strip s) "")
  | None => false
  end.

Definition all_rules (r : typed_row) : bool :=
  negb (is_invalid_date r) && negb (is_invalid_price r)
  && negb (is_invalid_region r) && negb (is_invalid_condition r)
  && forallb (fun c => nonblank (column c r)) essential.


(** The lookup rows that [enrich] joins to a row: those whose title-cased
    category is the category of the row. *)
Definition matching (lookup : list lookup_row) (r : typed_row) : list lookup_row :=
  List.filter (fun l => bool_decide (Text.title <$> lk_category l = category r)) lookup.

(** The rows [enrich] writes for one row. *)
Definition joined (lookup : list lookup_row) (r : typed_row) : list enriched_row :=
  match matching lookup r with
  | [] => [ {| listing := r; segment := None |} ]
  | l :: ls => List.map (fun l => {| listing := r; segment := lk_segment l |}) (l :: ls)
  end.

(** A lookup without two rows of the same title-cased category. *)
Definition unique_categories (lookup : list lookup_row) : Prop :=
  List.NoDup (List.map (fun l => Text.title <$> lk_category l) lookup).

(** ** The run, in the words of the specification *)

(** The typed frame of a run, and the rows its validator marks valid. *)
Definition typed_frame (to_datetime : cell -> option Z) (to_numeric : cell -> option Q)
  (listings : raw_frame) : list typed_row :=
  coerce_types to_datetime to_numeric (standardise_columns listings).

Definition valid_rows (to_datetime : cell -> option Z) (to_numeric : cell -> option Q)
  (listings : raw_frame) : list typed_row :=
  let df_typed := typed_frame to_datetime to_numeric listings in
  select (validate df_typed).1 df_typed.

(** The validity of a row of the clean table, on the columns it has. *)
Definition out_valid (o : out_row) : Prop :=
  is_Some (o_date o) /\
  (exists p, o_price_gbp o = Some p /\ (0 < p)%Q) /\
  (exists s, o_region o = Some s /\ s ∈ VALID_REGIONS) /\
  (exists s, o_condition o = Some s /\ s ∈ VALID_CONDITION) /\
  present_nonblank (o_seller_id o) /\
  present_nonblank (o_category o) /\
  present_nonblank (o_item_id o).




(** ** The report, in the words of the specification *)

(** The number of cells of a column that hold [k]; [k = None] counts the
    missing ones. *)
Definition occurrences (k : cell) (col : list cell) : nat :=
  length (List.filter (fun v => bool_decide (v = k)) col).

(** A frequency mapping has a key for each value that occurs. *)
Definition bucket (n : nat) : option nat := if n is O then None else Some n.

(** The price series [quality_stats] summarises. *)
Definition prices (df : stats_frame) : list Q :=
  dropna (match sf_price df with inl col => col | inr col => col end).

Definition no_price : price_stats :=
  {| p_min := None; p_max := None; p_avg := None; p_p50 := None; p_p95 := None |}.

(** ** Further notions used to state properties of the stages *)

(** The test that [validate] sums for the tally of a rule. *)
Definition breaks (ρ : rule) (r : typed_row) : bool :=
  match ρ with
  | InvalidDate => is_invalid_date r
  | InvalidPrice => is_invalid_price r
  | InvalidRegion => is_invalid_region r
  | InvalidCondition => is_invalid_condition r
  | MissingNull c => isna (column c r)
  | MissingEmpty c => String.eqb (Text.strip (astype_str (na_text c) (column c r))) ""
  end.

(** The sum of the counts of a frequency mapping. *)
Definition total (m : gmap cell nat) : nat :=
  map_fold (fun _ n acc => (n + acc)%nat) O m.

(** The natural key and the sort order, read on the clean table. *)
Definition out_key (o : out_row) : option Z * cell * cell :=
  (o_date o, o_seller_id o, o_item_id o).

Definition out_cmp : out_row -> out_row -> comparison :=
  cmp_lex (cmp_on o_date (cmp_opt Z.compare))
    (cmp_lex (cmp_on o_seller_id (cmp_opt String.compare))
       (cmp_lex (cmp_on o_item_id (cmp_opt String.compare))
          (cmp_on o_price_gbp (cmp_opt Qcompare)))).

(** * Facts

    ** Text *)

Module TextFacts.
Import Text.

(** Facts on characters, by enumeration of the 256 codes. *)

Ltac by_cases_on_ascii c :=
  destruct c as [[] [] [] [] [] [] [] []]; vm_compute; try reflexivity; try discriminate; auto.

Lemma to_lower_not_upper c : isupper (to_lower c) = false.
Proof. by_cases_on_ascii c. Qed.




Lemma lower_not_upper c : islower c = true -> isupper c = false.
Proof. by_cases_on_ascii c. Qed.

Lemma to_lower_space c : isspace (to_lower c) = isspace c.
Proof. by_cases_on_ascii c. Qed.

Lemma to_upper_space c : isspace (to_upper c) = isspace c.
Proof. by_cases_on_ascii c. Qed.

Lemma to_lower_idem c : to_lower (to_lower c) = to_lower c.
Proof. by_cases_on_ascii c. Qed.

(** Facts on strings. *)

Lemma lower_idem s : lower (lower s) = lower s.
Proof. induction s as [|c s IH]; simpl; [reflexivity|]. now rewrite to_lower_idem, IH. Qed.



Lemma space_uncased c : isspace c = true -> islower c = false /\ isupper c = false.
Proof. by_cases_on_ascii c. Qed.

Lemma lstrip_head s :
  lstrip s = EmptyString \/ exists c r, lstrip s = String c r /\ isspace c = false.
Proof.
  induction s as [|c s IH]; simpl; [now left|].
  destruct (isspace c) eqn:Hc; [exact IH|]. right. now exists c, s.
Qed.

Lemma lstrip_fixed c r : isspace c = false -> lstrip (String c r) = String c r.
Proof. intros Hc. simpl. now rewrite Hc. Qed.

Lemma rstrip_cons_nonspace c r : isspace c = false -> rstrip (String c r) = String c (rstrip r).
Proof. intros Hc. simpl. rewrite Hc. now destruct (rstrip r). Qed.

Lemma rstrip_cons_nonempty c s :
  rstrip s <> EmptyString -> rstrip (String c s) = String c (rstrip s).
Proof. intros H. simpl. destruct (rstrip s); [contradiction|reflexivity]. Qed.

Lemma rstrip_idem s : rstrip (rstrip s) = rstrip s.
Proof.
  induction s as [|c s IH]; simpl; [reflexivity|].
  destruct (rstrip s) as [|d r] eqn:Hr.
  - destruct (isspace c) eqn:Hc; simpl; [reflexivity|]. now rewrite Hc.
  - rewrite rstrip_cons_nonempty; rewrite IH; [reflexivity|discriminate].
Qed.

Lemma strip_idem s : strip (strip s) = strip s.
Proof.
  unfold strip. destruct (lstrip_head s) as [-> | (c & r & -> & Hc)]; [reflexivity|].
  rewrite (rstrip_cons_nonspace _ _ Hc), (lstrip_fixed _ _ Hc).
  rewrite (rstrip_cons_nonspace _ _ Hc). now rewrite rstrip_idem.
Qed.

(** Changing the case moves no white space, so it commutes with [strip]. *)

Lemma lstrip_lower s : lstrip (lower s) = lower (lstrip s).
Proof.
  induction s as [|c s IH]; simpl; [reflexivity|].
  rewrite to_lower_space. now destruct (isspace c).
Qed.

Lemma lower_empty s : lower s = EmptyString <-> s = EmptyString.
Proof. now destruct s. Qed.

Lemma rstrip_lower s : rstrip (lower s) = lower (rstrip s).
Proof.
  induction s as [|c s IH]; simpl; [reflexivity|].
  rewrite IH, to_lower_space. destruct (rstrip s); simpl; [|reflexivity].
  now destruct (isspace c).
Qed.

Lemma strip_lower s : strip (lower s) = lower (strip s).
Proof. unfold strip. now rewrite lstrip_lower, rstrip_lower. Qed.

Lemma title_from_empty prev s : title_from prev s = EmptyString <-> s = EmptyString.
Proof.
  destruct s as [|c s]; simpl; [tauto|].
  split; [|discriminate]. now destruct (islower c), (isupper c).
Qed.

Lemma title_from_cons prev c s :
  title_from prev (String c s) = String (title_char prev c) (title_from (cased c) s).
Proof. unfold title_char, cased. simpl. now destruct (islower c), (isupper c). Qed.

Lemma title_char_space prev c : isspace (title_char prev c) = isspace c.
Proof.
  unfold title_char. destruct (islower c), (isupper c), prev;
    rewrite ?to_upper_space, ?to_lower_space; reflexivity.
Qed.

Lemma title_space prev c : isspace c = true -> title_char prev c = c /\ cased c = false.
Proof.
  intros Hs. unfold title_char, cased. now destruct (space_uncased _ Hs) as [-> ->].
Qed.

Lemma lstrip_title s : lstrip (title s) = title (lstrip s).
Proof.
  unfold title. induction s as [|c s IH]; [reflexivity|].
  rewrite title_from_cons. destruct (isspace c) eqn:Hc.
  - destruct (title_space false _ Hc) as [-> ->]. simpl lstrip. rewrite Hc. exact IH.
  - rewrite (lstrip_fixed _ _ Hc), title_from_cons.
    apply lstrip_fixed. now rewrite title_char_space.
Qed.

Lemma rstrip_title_from prev s : rstrip (title_from prev s) = title_from prev (rstrip s).
Proof.
  revert prev; induction s as [|c s IH]; intros prev; [reflexivity|].
  rewrite title_from_cons. destruct (rstrip s) as [|d r] eqn:Hr.
  - simpl rstrip. rewrite IH, Hr, title_char_space. simpl title_from at 1.
    destruct (isspace c); [reflexivity|]. now rewrite title_from_cons.
  - rewrite !rstrip_cons_nonempty; rewrite ?IH, ?Hr; try discriminate.
    + symmetry. apply title_from_cons.
    + intros H. apply title_from_empty in H. discriminate.
Qed.

Lemma strip_title s : strip (title s) = title (strip s).
Proof. unfold strip. rewrite lstrip_title. apply rstrip_title_from. Qed.

(** What [coerce_types] leaves in a text column is trimmed, and cased as
    asked. *)

Lemma strip_title_strip s : strip (title (strip s)) = title (strip s).
Proof. now rewrite strip_title, strip_idem. Qed.


Lemma title_empty s : title s = EmptyString <-> s = EmptyString.
Proof. apply title_from_empty. Qed.

End TextFacts.

(** ** Comparisons *)

Section ComparisonFacts.
Context {A : Type} (cmp : A -> A -> comparison) `{!Comparison cmp}.

Lemma cmp_refl x : cmp x x = Eq.
Proof. generalize (cmp_sym x x). now destruct (cmp x x). Qed.

Lemma cmp_eq_l x y z : cmp x y = Eq -> cmp x z = cmp y z.
Proof.
  intros Hxy. assert (Hyx : cmp y x = Eq) by now rewrite cmp_sym, Hxy.
  destruct (cmp y z) eqn:Hyz.
  - now apply cmp_trans with y.
  - destruct (cmp x z) eqn:Hxz; [| reflexivity |].
    + rewrite <- Hyz. symmetry. now apply cmp_trans with x.
    + assert (Hzx : cmp z x = Lt) by now rewrite cmp_sym, Hxz.
      rewrite (cmp_trans Lt y z x Hyz Hzx) in Hyx. discriminate.
  - destruct (cmp x z) eqn:Hxz; [| | reflexivity].
    + rewrite <- Hyz. symmetry. now apply cmp_trans with x.
    + assert (Hzy : cmp z y = Lt) by now rewrite cmp_sym, Hyz.
      rewrite (cmp_trans Lt x z y Hxz Hzy) in Hxy. discriminate.
Qed.

Lemma cmp_eq_r x y z : cmp y z = Eq -> cmp x y = cmp x z.
Proof.
  intros Hyz. rewrite (cmp_sym y x), (cmp_sym z x). f_equal.
  now apply cmp_eq_l.
Qed.

Lemma cmp_eq_sym x y : cmp x y = Eq -> cmp y x = Eq.
Proof. intros H. now rewrite cmp_sym, H. Qed.
End ComparisonFacts.

#[export] Instance Comparison_opt {A} (cmp : A -> A -> comparison) `{!Comparison cmp} :
Comparison (cmp_opt cmp).
Proof.
split.
- intros [x|] [y|]; simpl; auto using cmp_sym.
- intros c [x|] [y|] [z|]; simpl; intros; subst; try congruence.
  now apply cmp_trans with y.
Qed.

#[export] Instance Comparison_on {A B} (key : A -> B) (cmp : B -> B -> comparison)
`{!Comparison cmp} : Comparison (cmp_on key cmp).
Proof.
split; unfold cmp_on.
- intros. apply cmp_sym.
- intros c x y z. apply cmp_trans.
Qed.

#[export] Instance Comparison_lex {A} (f g : A -> A -> comparison)
`{!Comparison f} `{!Comparison g} : Comparison (cmp_lex f g).
Proof.
split; unfold cmp_lex.
- intros x y. rewrite (cmp_sym (cmp:=f) x y).
  destruct (f x y); simpl; auto using cmp_sym.
- intros c x y z Hxy Hyz.
  destruct (f x y) eqn:Fxy.
  + rewrite (cmp_eq_l f x y z Fxy). destruct (f y z); [|congruence..].
    now apply cmp_trans with y.
  + subst c. destruct (f y z) eqn:Fyz; try discriminate.
    * now rewrite (cmp_eq_r f x y z Fyz) in Fxy; rewrite Fxy.
    * now rewrite (cmp_trans Lt x y z Fxy Fyz).
  + subst c. destruct (f y z) eqn:Fyz; try discriminate.
    * now rewrite (cmp_eq_r f x y z Fyz) in Fxy; rewrite Fxy.
    * now rewrite (cmp_trans Gt x y z Fxy Fyz).
Qed.

#[export] Instance Comparison_Z : Comparison Z.compare.
Proof.
split.
- intros x y. apply Z.compare_antisym.
- intros [] x y z; rewrite ?Z.compare_eq_iff, ?Z.compare_lt_iff, ?Z.compare_gt_iff; lia.
Qed.

#[export] Instance Comparison_Q : Comparison Qcompare.
Proof.
split.
- intros x y. symmetry. apply Qcompare_antisym.
- intros [] x y z; rewrite <- ?Qeq_alt, <- ?Qlt_alt, <- ?Qgt_alt.
  + apply Qeq_trans.
  + apply Qlt_trans.
  + intros H1 H2. now apply Qlt_trans with y.
Qed.

#[export] Instance Comparison_ascii : Comparison Ascii.compare.
Proof.
split; unfold Ascii.compare.
- intros x y. apply N.compare_antisym.
- intros [] x y z; rewrite ?N.compare_eq_iff, ?N.compare_lt_iff, ?N.compare_gt_iff; lia.
Qed.

(** Python orders strings by code point, as [String.compare] does. *)
#[export] Instance Comparison_string : Comparison String.compare.
Proof.
split.
- intros x y. apply String.compare_antisym.
- intros c x. induction x as [|a x IH]; intros [|b y] [|d z]; simpl; try congruence.
  change (cmp_lex (cmp_on fst Ascii.compare) (cmp_on snd String.compare) (a, x) (b, y) = c ->
          cmp_lex (cmp_on fst Ascii.compare) (cmp_on snd String.compare) (b, y) (d, z) = c ->
          cmp_lex (cmp_on fst Ascii.compare) (cmp_on snd String.compare) (a, x) (d, z) = c).
  unfold cmp_lex, cmp_on; simpl.
  destruct (Ascii.compare a b) eqn:Fab.
  + rewrite (cmp_eq_l Ascii.compare a b d Fab). destruct (Ascii.compare b d); [|congruence..].
    apply IH.
  + intros <-. destruct (Ascii.compare b d) eqn:Fbd; try discriminate.
    * rewrite (cmp_eq_r Ascii.compare a b d Fbd) in Fab. now rewrite Fab.
    * now rewrite (cmp_trans Lt a b d Fab Fbd).
  + intros <-. destruct (Ascii.compare b d) eqn:Fbd; try discriminate.
    * rewrite (cmp_eq_r Ascii.compare a b d Fbd) in Fab. now rewrite Fab.
    * now rewrite (cmp_trans Gt a b d Fab Fbd).
Qed.

(** ** Facts on the stable sort and on [drop_duplicates] *)

Section StableSortFacts.
Context {A : Type} (cmp : A -> A -> comparison) `{!Comparison cmp}.

Lemma leb_total x y : leb cmp x y = true \/ leb cmp y x = true.
Proof. unfold leb. rewrite (cmp_sym x y). destruct (cmp x y); auto. Qed.

Lemma leb_false x y : leb cmp x y = false -> leb cmp y x = true.
Proof. destruct (leb_total x y); congruence. Qed.

Lemma leb_trans x y z : leb cmp x y = true -> leb cmp y z = true -> leb cmp x z = true.
Proof.
  unfold leb. destruct (cmp x y) eqn:Hxy; [| |discriminate]; intros _.
  - now rewrite (cmp_eq_l cmp x y z Hxy).
  - destruct (cmp y z) eqn:Hyz; [| |discriminate]; intros _.
    + now rewrite <- (cmp_eq_r cmp x y z Hyz), Hxy.
    + now rewrite (cmp_trans Lt x y z Hxy Hyz).
Qed.

Lemma insert_perm r l : Permutation (insert cmp r l) (r :: l).
Proof.
  induction l as [|x l IH]; simpl; [reflexivity|].
  destruct (leb cmp r x); [reflexivity|].
  rewrite IH. apply perm_swap.
Qed.

Lemma stable_sort_perm l : Permutation (stable_sort cmp l) l.
Proof.
  induction l as [|x l IH]; simpl; [reflexivity|].
  rewrite insert_perm. now constructor.
Qed.

Lemma stable_sort_In l x : In x (stable_sort cmp l) <-> In x l.
Proof.
  split; apply Permutation_in; [|symmetry]; apply stable_sort_perm.
Qed.

Lemma stable_sort_length l : length (stable_sort cmp l) = length l.
Proof. apply Permutation_length, stable_sort_perm. Qed.

Lemma insert_sorted r l :
  StronglySorted (fun x y => leb cmp x y = true) l ->
  StronglySorted (fun x y => leb cmp x y = true) (insert cmp r l).
Proof.
  induction 1 as [|x l Hl IH Hx]; simpl.
  - constructor; constructor.
  - destruct (leb cmp r x) eqn:Hrx.
    + constructor; [now constructor|]. constructor; [exact Hrx|].
      revert Hx. apply List.Forall_impl. intros y. now apply leb_trans.
    + constructor; [exact IH|].
      rewrite List.Forall_forall. intros y Hy.
      apply (Permutation_in _ (insert_perm r l)) in Hy. destruct Hy as [<-|Hy].
      * now apply leb_false.
      * rewrite List.Forall_forall in Hx. now apply Hx.
Qed.

Lemma stable_sort_sorted l : StronglySorted (fun x y => leb cmp x y = true) (stable_sort cmp l).
Proof. induction l; simpl; [constructor|now apply insert_sorted]. Qed.



End StableSortFacts.

Section DropDuplicatesFacts.
Context {A K : Type} `{Countable K} (key : A -> K).


Lemma drop_seen_first seen l s :
  In s (drop_seen key seen l) ->
  (key s ∉ seen) /\
  exists a b, l = a ++ s :: b /\ forall r, In r a -> key r <> key s.
Proof.
  revert seen; induction l as [|x l IH]; intros seen; simpl; [tauto|].
  destruct (decide (key x ∈ seen)) as [Hx|Hx].
  - intros Hs. destruct (IH _ Hs) as (Hn & a & b & -> & Ha).
    split; [exact Hn|]. exists (x :: a), b. split; [reflexivity|].
    intros r [<-|Hr]; [congruence|now apply Ha].
  - intros [<-|Hs].
    + split; [exact Hx|]. exists [], l. split; [reflexivity|]. intros r [].
    + destruct (IH _ Hs) as (Hn & a & b & -> & Ha).
      rewrite elem_of_union, elem_of_singleton in Hn.
      split; [tauto|]. exists (x :: a), b. split; [reflexivity|].
      intros r [<-|Hr]; [intros E; apply Hn; now left|now apply Ha].
Qed.

Lemma drop_seen_In seen l s : In s (drop_seen key seen l) -> In s l.
Proof.
  intros Hs. destruct (drop_seen_first _ _ _ Hs) as (_ & a & b & -> & _).
  apply in_elt.
Qed.


Lemma drop_seen_NoDup seen l : List.NoDup (List.map key (drop_seen key seen l)).
Proof.
  revert seen; induction l as [|x l IH]; intros seen; simpl; [constructor|].
  destruct (decide (key x ∈ seen)); [apply IH|].
  simpl. constructor; [|apply IH].
  rewrite in_map_iff. intros (s & Es & Hs).
  apply drop_seen_first in Hs. destruct Hs as [Hs _].
  rewrite elem_of_union, elem_of_singleton in Hs. apply Hs. now left.
Qed.

Lemma drop_seen_length seen l : (length (drop_seen key seen l) <= length l)%nat.
Proof.
  revert seen; induction l as [|x l IH]; intros seen; simpl; [lia|].
  destruct (decide (key x ∈ seen)); simpl; [specialize (IH seen)|specialize (IH ({[key x]} ∪ seen))]; lia.
Qed.

Lemma drop_seen_sorted (R : A -> A -> Prop) seen l :
  StronglySorted R l -> StronglySorted R (drop_seen key seen l).
Proof.
  intros Hl; revert seen; induction Hl as [|x l Hl IH Hx]; intros seen; simpl; [constructor|].
  destruct (decide (key x ∈ seen)); [apply IH|].
  constructor; [apply IH|].
  rewrite List.Forall_forall in *. intros y Hy. apply Hx. eapply drop_seen_In, Hy.
Qed.

(** On a list without repeated keys nothing is dropped. *)
Lemma drop_seen_id seen l :
  List.NoDup (List.map key l) -> (forall r, In r l -> key r ∉ seen) -> drop_seen key seen l = l.
Proof.
  revert seen; induction l as [|x l IH]; intros seen; simpl; [reflexivity|].
  intros Hnd Hseen. inversion_clear Hnd as [|? ? Hx Hl].
  destruct (decide (key x ∈ seen)) as [Hin|_]; [now destruct (Hseen x (or_introl eq_refl))|].
  f_equal. apply IH; [exact Hl|].
  intros r Hr. specialize (Hseen r (or_intror Hr)).
  assert (key r <> key x) by (intros E; apply Hx; rewrite <- E; now apply in_map).
  rewrite elem_of_union, elem_of_singleton. tauto.
Qed.


End DropDuplicatesFacts.

Section SortThenDrop.
Context {A K : Type} (cmp : A -> A -> comparison) `{!Comparison cmp}.
Context `{Countable K} (key : A -> K).

(** Sorting, then keeping the first row of each key: when tied rows share
    their key, the survivor of a key is the first least row of its group
    in the input. *)
Hypothesis tie_key : forall x y, cmp x y = Eq -> key x = key y.

End SortThenDrop.

(** ** [validate] *)

Lemma require_essential_plain r b c :
  require_essential r (Some b) c = Some (b && nonblank (column c r)).
Proof.
  unfold require_essential, nonblank, ne_empty, notna, isna.
  destruct (column c r) as [s|]; simpl.
  - destruct b, (String.eqb (Text.strip s) ""); reflexivity.
  - destruct b; reflexivity.
Qed.

(** The mask of [validate] is never <NA>: it is the plain conjunction. *)
Lemma mask_valid_plain r : mask_valid r = Some (all_rules r).
Proof.
  unfold mask_valid, essential. simpl fold_left.
  rewrite !require_essential_plain. unfold all_rules. simpl forallb.
  f_equal. rewrite andb_true_r, !andb_assoc. reflexivity.
Qed.

Lemma nonblank_spec v : nonblank v = true <-> present_nonblank v.
Proof.
  unfold nonblank, present_nonblank. destruct v as [s|].
  - rewrite negb_true_iff, String.eqb_neq. split.
    + intros Hs. now exists s.
    + now intros (s' & [= <-] & Hs).
  - split; [discriminate|]. now intros (s & [=] & _).
Qed.

Lemma is_invalid_date_spec r : is_invalid_date r = true <-> date_parsed r = None.
Proof. unfold is_invalid_date. destruct (date_parsed r); simpl; split; congruence. Qed.

Lemma is_invalid_price_spec r :
  is_invalid_price r = false <-> exists p, price_gbp_num r = Some p /\ (0 < p)%Q.
Proof.
  unfold is_invalid_price, le_zero. destruct (price_gbp_num r) as [p|]; simpl.
  - split.
    + intros Hp. exists p. split; [reflexivity|]. apply Qnot_le_lt.
      rewrite <- Qle_bool_iff. now rewrite Hp.
    + intros (q & [= <-] & Hq). apply Qlt_not_le in Hq.
      rewrite <- Qle_bool_iff in Hq. now destruct (Qle_bool p 0).
  - split; [discriminate|]. now intros (p & [=] & _).
Qed.

Lemma isin_spec v values : isin v values = true <-> exists s, v = Some s /\ s ∈ values.
Proof.
  unfold isin. destruct v as [s|].
  - rewrite bool_decide_eq_true. split.
    + intros Hs. now exists s.
    + now intros (s' & [= <-] & Hs).
  - split; [discriminate|]. now intros (s & [=] & _).
Qed.

Lemma all_rules_spec r : all_rules r = true <-> spec_valid r.
Proof.
  unfold all_rules, spec_valid, essential. simpl forallb.
  rewrite !andb_true_iff, !negb_true_iff, !nonblank_spec.
  unfold is_invalid_region, is_invalid_condition. rewrite !negb_false_iff, !isin_spec.
  rewrite is_invalid_price_spec.
  assert (is_invalid_date r = false <-> is_Some (date_parsed r)) as ->.
  { unfold is_invalid_date. destruct (date_parsed r); simpl; split; eauto; try discriminate.
    now intros [? [=]]. }
  cbn [column String.eqb Ascii.eqb Bool.eqb]. tauto.
Qed.

Lemma all_rules_false r : all_rules r = false <-> ~ spec_valid r.
Proof. rewrite <- all_rules_spec. now destruct (all_rules r). Qed.

Lemma select_plain {A} (p : A -> bool) (f : bool -> bool) (df : list A) :
  select (List.map (fun r => Some (f (p r))) df) df = List.filter (fun r => f (p r)) df.
Proof.
  induction df as [|r df IH]; [reflexivity|]. simpl.
  destruct (f (p r)); now rewrite IH.
Qed.

Lemma validate_mask df : (validate df).1 = List.map (fun r => Some (all_rules r)) df.
Proof. simpl. apply List.map_ext. apply mask_valid_plain. Qed.

Lemma select_valid df :
  select (validate df).1 df = List.filter all_rules df.
Proof. rewrite validate_mask. apply (select_plain all_rules (fun b => b)). Qed.

Lemma select_invalid df :
  select (List.map knot (validate df).1) df = List.filter (fun r => negb (all_rules r)) df.
Proof.
  rewrite validate_mask, List.map_map. apply (select_plain all_rules negb).
Qed.

Lemma filter_partition {A} (p : A -> bool) (l : list A) :
  Permutation (List.filter p l ++ List.filter (fun x => negb (p x)) l) l.
Proof.
  induction l as [|x l IH]; [reflexivity|]. simpl.
  destruct (p x); simpl.
  - now constructor.
  - rewrite <- Permutation_middle. now constructor.
Qed.

Lemma tally_cons {A} (p : A -> bool) r df :
  tally p (r :: df) = if p r then S (tally p df) else tally p df.
Proof. unfold tally. simpl. now destruct (p r). Qed.

Lemma assoc_map (f : string -> nat) c cols :
  In c cols -> assoc c (List.map (fun k => (k, f k)) cols) = Some (f c).
Proof.
  induction cols as [|k cols IH]; simpl; [tauto|].
  destruct (String.eqb_spec c k) as [->|Hne]; [reflexivity|].
  intros [->|Hc]; [congruence|now apply IH].
Qed.

Lemma strip_na_text c : Text.strip (na_text c) <> "".
Proof. unfold na_text. now destruct (_ || _). Qed.

Lemma empty_text_spec c r :
  String.eqb (Text.strip (astype_str (na_text c) (column c r))) "" = true
  <-> exists s, column c r = Some s /\ Text.strip s = "".
Proof.
  rewrite String.eqb_eq. unfold astype_str. destruct (column c r) as [s|]; simpl.
  - split; [intros Hs; now exists s|now intros (s' & [= <-] & Hs)].
  - split; [intros Hs; now destruct (strip_na_text c)|now intros (s & [=] & _)].
Qed.

(** Each tally moves by one on a row that breaks its rule, and stays on
    any other row. *)
Lemma tally_of_step ρ r df :
  tallied ρ ->
  exists n, tally_of (validate df).2 ρ = Some n /\
    (fails r ρ -> tally_of (validate (r :: df)).2 ρ = Some (S n)) /\
    (~ fails r ρ -> tally_of (validate (r :: df)).2 ρ = Some n).
Proof.
  destruct ρ as [| | | |c|c]; intros Hρ; unfold validate;
    cbn [snd tally_of fails missing_nulls missing_empty invalid_date invalid_price
         invalid_region invalid_condition].
  - exists (tally is_invalid_date df). rewrite tally_cons, <- is_invalid_date_spec.
    destruct (is_invalid_date r); intuition congruence.
  - exists (tally is_invalid_price df). rewrite tally_cons, <- is_invalid_price_spec.
    destruct (is_invalid_price r); intuition congruence.
  - exists (tally is_invalid_region df). rewrite tally_cons, <- isin_spec.
    unfold is_invalid_region. destruct (isin (region r) VALID_REGIONS); simpl; intuition congruence.
  - exists (tally is_invalid_condition df). rewrite tally_cons, <- isin_spec.
    unfold is_invalid_condition.
    destruct (isin (condition r) VALID_CONDITION); simpl; intuition congruence.
  - unfold null_counts.
    rewrite !(assoc_map (fun k => tally (fun r => isna (column k r)) _) c _ Hρ).
    eexists; split; [reflexivity|]. rewrite tally_cons.
    destruct (column c r); simpl; intuition congruence.
  - unfold empty_counts.
    rewrite !(assoc_map (fun k => tally (fun r =>
      String.eqb (Text.strip (astype_str (na_text k) (column k r))) "") _) c _ Hρ).
    eexists; split; [reflexivity|]. rewrite tally_cons, <- empty_text_spec.
    destruct (String.eqb _ ""); intuition congruence.
Qed.

Lemma tally_of_empty ρ : tallied ρ -> tally_of (validate []).2 ρ = Some O.
Proof.
  destruct ρ as [| | | |c|c]; intros Hρ; try reflexivity; unfold validate;
    cbn [snd tally_of missing_nulls missing_empty].
  - unfold null_counts. now erewrite assoc_map by exact Hρ.
  - unfold empty_counts. now erewrite assoc_map by exact Hρ.
Qed.

Lemma gating_tallied ρ : gating ρ -> tallied ρ.
Proof.
  destruct ρ as [| | | |c|c]; simpl; try tauto;
    intros Hc; repeat destruct Hc as [<-|Hc]; try contradiction; simpl; tauto.
Qed.

Lemma nonblank_false c r :
  nonblank (column c r) = false -> fails r (MissingNull c) \/ fails r (MissingEmpty c).
Proof.
  unfold nonblank. simpl. destruct (column c r) as [s|]; [|now left].
  rewrite negb_false_iff, String.eqb_eq. intros Hs. right. now exists s.
Qed.

(** A row is invalid exactly when it breaks a gating rule. *)
Lemma invalid_iff_fails r : ~ spec_valid r <-> exists ρ, gating ρ /\ fails r ρ.
Proof.
  split.
  - rewrite <- all_rules_false. unfold all_rules.
    rewrite !andb_false_iff. intros [[[[Hd|Hp]|Hr]|Hc]|He].
    + exists InvalidDate. split; [exact I|]. apply is_invalid_date_spec.
      now rewrite negb_false_iff in Hd.
    + exists InvalidPrice. split; [exact I|]. simpl. rewrite <- is_invalid_price_spec.
      rewrite negb_false_iff in Hp. congruence.
    + exists InvalidRegion. split; [exact I|]. simpl. rewrite <- isin_spec.
      unfold is_invalid_region in Hr. rewrite negb_involutive in Hr. congruence.
    + exists InvalidCondition. split; [exact I|]. simpl. rewrite <- isin_spec.
      unfold is_invalid_condition in Hc. rewrite negb_involutive in Hc. congruence.
    + unfold essential in He. cbn [forallb] in He.
      rewrite andb_true_r, !andb_false_iff in He.
      destruct He as [He|[He|[He|[He|He]]]];
        (destruct (nonblank_false _ _ He);
         eexists; (split; [|eassumption]); simpl; tauto).
  - intros (ρ & Hg & Hf) Hv.
    destruct Hv as (Hd & Hp & Hr & Hc & He).
    destruct ρ as [| | | |c|c]; simpl in Hf, Hg; try tauto.
    + rewrite Hf in Hd. now destruct Hd.
    + assert (Hn : present_nonblank (column c r)).
      { repeat destruct Hg as [<-|Hg]; try contradiction; simpl; tauto. }
      destruct Hn as (s & Hs & _). congruence.
    + assert (Hn : present_nonblank (column c r)).
      { repeat destruct Hg as [<-|Hg]; try contradiction; simpl; tauto. }
      destruct Hn as (s & Hs & Hne). destruct Hf as (s' & Hs' & He').
      congruence.
Qed.

Lemma present_nonblank_strip v : present_nonblank (Text.strip <$> v) <-> present_nonblank v.
Proof.
  unfold present_nonblank. destruct v as [s|]; simpl.
  - split; intros (s' & [= <-] & Hs).
    + exists s. split; [reflexivity|]. now rewrite TextFacts.strip_idem in Hs.
    + exists (Text.strip s). split; [reflexivity|]. now rewrite TextFacts.strip_idem.
  - split; now intros (s & [=] & _).
Qed.

Lemma present_nonblank_title_strip v :
  present_nonblank (Text.title <$> (Text.strip <$> v)) <-> present_nonblank v.
Proof.
  unfold present_nonblank. destruct v as [s|]; simpl.
  - split; intros (s' & [= <-] & Hs).
    + exists s. split; [reflexivity|].
      rewrite TextFacts.strip_title_strip, TextFacts.title_empty in Hs. exact Hs.
    + exists (Text.title (Text.strip s)). split; [reflexivity|].
      now rewrite TextFacts.strip_title_strip, TextFacts.title_empty.
  - split; now intros (s & [=] & _).
Qed.

(** On a row that [coerce_types] made, the five essential columns are
    present and not blank exactly when the cells they were read from are. *)
Lemma essential_of_raw (to_datetime : cell -> option Z) (to_numeric : cell -> option Q)
  (labels : list string) (raw : list cell) :
  let r := coerce_row to_datetime to_numeric labels raw in
  let cell_of := at_label labels raw in
  (present_nonblank (date r) <-> present_nonblank (cell_of "date"))
  /\ (present_nonblank (seller_id r) <-> present_nonblank (cell_of "seller_id"))
  /\ (present_nonblank (category r) <-> present_nonblank (cell_of "category"))
  /\ (present_nonblank (item_id r) <-> present_nonblank (cell_of "item_id"))
  /\ (present_nonblank (price_gbp r) <-> present_nonblank (cell_of "price_gbp")).
Proof.
  cbv zeta. unfold coerce_row. cbn [date seller_id category item_id price_gbp].
  split; [reflexivity|]. split; [apply present_nonblank_strip|].
  split; [apply present_nonblank_title_strip|].
  split; [apply present_nonblank_strip|reflexivity].
Qed.

(** C1. [validate] marks a row valid exactly when the date is parsed, the
    price is parsed and positive, the region and the condition are in their
    vocabularies, and [date], [seller_id], [category], [item_id] and
    [price_gbp] are present and not blank; the mask is never <NA>.  A row is
    invalid exactly when it breaks one of these rules; the tally of a rule
    grows by one on each row that breaks this rule, whatever the row does to
    the other rules; and the valid and the invalid rows split the frame,
    each row falling on exactly one side.  On the rows of [coerce_types] the
    essential columns pass exactly when the cells before coercion do. *)
Theorem validate_rules_and_tallies (df : list typed_row) :
  Forall2 (fun r m => (m = Some true <-> spec_valid r) /\ (m = Some false <-> ~ spec_valid r))
          df (validate df).1
  /\ (forall r, ~ spec_valid r <-> exists ρ, gating ρ /\ fails r ρ)
  /\ (forall ρ, gating ρ -> tallied ρ)
  /\ (forall ρ, tallied ρ -> tally_of (validate []).2 ρ = Some O)
  /\ (forall ρ r, tallied ρ ->
        exists n, tally_of (validate df).2 ρ = Some n /\
          (fails r ρ -> tally_of (validate (r :: df)).2 ρ = Some (S n)) /\
          (~ fails r ρ -> tally_of (validate (r :: df)).2 ρ = Some n))
  /\ (let valid := select (validate df).1 df in
      let invalid := select (List.map knot (validate df).1) df in
      List.Forall spec_valid valid /\
      List.Forall (fun r => ~ spec_valid r) invalid /\
      Permutation (valid ++ invalid) df)
  /\ (forall to_datetime to_numeric labels raw,
      let r := coerce_row to_datetime to_numeric labels raw in
      let cell_of := at_label labels raw in
      (present_nonblank (date r) <-> present_nonblank (cell_of "date"))
      /\ (present_nonblank (seller_id r) <-> present_nonblank (cell_of "seller_id"))
      /\ (present_nonblank (category r) <-> present_nonblank (cell_of "category"))
      /\ (present_nonblank (item_id r) <-> present_nonblank (cell_of "item_id"))
      /\ (present_nonblank (price_gbp r) <-> present_nonblank (cell_of "price_gbp"))).
Proof.
  split; [|split; [|split; [|split; [|split; [|split]]]]]; [| | | | | |apply essential_of_raw].
  - rewrite validate_mask. induction df as [|r df IH]; simpl; constructor; [|exact IH].
    rewrite <- all_rules_spec. destruct (all_rules r); split; split; congruence.
  - apply invalid_iff_fails.
  - apply gating_tallied.
  - apply tally_of_empty.
  - intros ρ r. apply tally_of_step.
  - cbv zeta. rewrite select_valid, select_invalid. split; [|split].
    + rewrite List.Forall_forall. intros r Hr. apply List.filter_In in Hr.
      now apply all_rules_spec.
    + rewrite List.Forall_forall. intros r Hr. apply List.filter_In in Hr.
      apply all_rules_false. now destruct Hr as [_ ->%negb_true_iff].
    + apply filter_partition.
Qed.

(** ** [dedupe] *)

#[export] Instance Comparison_sort_cmp : Comparison sort_cmp.
Proof. unfold sort_cmp. exact _. Qed.







(** ** [enrich] *)

Lemma filter_map_commute {A B} (f : A -> B) (p : B -> bool) (l : list A) :
  List.filter p (List.map f l) = List.map f (List.filter (fun x => p (f x)) l).
Proof.
  induction l as [|x l IH]; [reflexivity|]. simpl.
  destruct (p (f x)); simpl; now rewrite IH.
Qed.

Lemma enrich_joined df lookup : enrich df lookup = flat_map (joined lookup) df.
Proof.
  unfold enrich, merge_left. apply flat_map_ext. intros r.
  unfold joined, matching. rewrite filter_map_commute. cbn [lk_category].
  destruct (List.filter _ lookup) as [|l ls]; [reflexivity|].
  cbn [List.map]. rewrite List.map_map. reflexivity.
Qed.

Lemma joined_length lookup r :
  length (joined lookup r) = Nat.max 1 (length (matching lookup r)).
Proof.
  unfold joined. destruct (matching lookup r) as [|l ls]; [reflexivity|].
  rewrite length_map. simpl. lia.
Qed.

Lemma joined_listing lookup r x : In x (joined lookup r) -> listing x = r.
Proof.
  unfold joined. destruct (matching lookup r) as [|l ls].
  - now intros [<-|[]].
  - rewrite in_map_iff. now intros (l' & <- & _).
Qed.

Lemma enrich_length df lookup :
  length (enrich df lookup)
  = list_sum (List.map (fun r => Nat.max 1 (length (matching lookup r))) df).
Proof.
  rewrite enrich_joined. induction df as [|r df IH]; [reflexivity|].
  cbn [flat_map List.map list_sum]. now rewrite length_app, joined_length, IH.
Qed.

Lemma enrich_length_ge df lookup : (length df <= length (enrich df lookup))%nat.
Proof.
  rewrite enrich_length. induction df as [|r df IH]; simpl; lia.
Qed.

Lemma enrich_In df lookup x : In x (enrich df lookup) -> In (listing x) df.
Proof.
  rewrite enrich_joined, in_flat_map. intros (r & Hr & Hx).
  now rewrite (joined_listing _ _ _ Hx).
Qed.

Lemma filter_key_NoDup {A K} `{EqDecision K} (key : A -> K) (k : K) (l : list A) :
  List.NoDup (List.map key l) ->
  (length (List.filter (fun x => bool_decide (key x = k)) l) <= 1)%nat.
Proof.
  induction l as [|x l IH]; simpl; [lia|].
  intros Hnd. inversion_clear Hnd as [|? ? Hx Hl]. specialize (IH Hl).
  destruct (bool_decide_reflect (key x = k)) as [E|_]; [|exact IH].
  assert (List.filter (fun x => bool_decide (key x = k)) l = []) as ->; [|simpl; lia].
  clear IH Hl. induction l as [|y l IH]; [reflexivity|]. simpl.
  destruct (bool_decide_reflect (key y = k)) as [E'|_].
  - destruct Hx. left. congruence.
  - apply IH. intros Hin. apply Hx. now right.
Qed.

Lemma matching_unique lookup r :
  unique_categories lookup -> (length (matching lookup r) <= 1)%nat.
Proof. apply (filter_key_NoDup (fun l => Text.title <$> lk_category l)). Qed.

Lemma enrich_unique df lookup :
  unique_categories lookup -> List.map listing (enrich df lookup) = df.
Proof.
  intros Hu. rewrite enrich_joined. induction df as [|r df IH]; [reflexivity|].
  cbn [flat_map]. rewrite List.map_app, IH. unfold joined.
  pose proof (matching_unique lookup r Hu) as Hm.
  destruct (matching lookup r) as [|l [|l' ls]]; simpl in *; try reflexivity; lia.
Qed.

Lemma enrich_unique_length df lookup :
  unique_categories lookup -> length (enrich df lookup) = length df.
Proof.
  intros Hu. rewrite <- (enrich_unique df lookup Hu) at 2. now rewrite length_map.
Qed.

(** C10. [enrich] writes one row for each pair of an input row and a lookup
    row of its category -- every matching lookup row, not the first one --
    and one row with a missing segment for an input row without match.  So
    the enriched table is longer than the input as soon as the category of
    an input row occurs twice in the lookup. *)
Theorem enrich_one_row_per_match (df : list typed_row) (lookup : list lookup_row) :
  enrich df lookup = flat_map (joined lookup) df
  /\ (forall r, matching lookup r = [] ->
        joined lookup r = [ {| listing := r; segment := None |} ])
  /\ (forall r, matching lookup r <> [] ->
        joined lookup r =
        List.map (fun l => {| listing := r; segment := lk_segment l |}) (matching lookup r))
  /\ length (enrich df lookup)
     = list_sum (List.map (fun r => Nat.max 1 (length (matching lookup r))) df)
  /\ ((exists r, In r df /\ (2 <= length (matching lookup r))%nat) ->
      (length df < length (enrich df lookup))%nat).
Proof.
  repeat match goal with |- _ /\ _ => split end.
  - apply enrich_joined.
  - intros r Hr. unfold joined. now rewrite Hr.
  - intros r Hr. unfold joined. now destruct (matching lookup r).
  - apply enrich_length.
  - intros (r & Hr & Hm). rewrite enrich_length.
    induction df as [|x df IH]; [destruct Hr|].
    destruct Hr as [->|Hr].
    + pose proof (enrich_length_ge df lookup) as Hge. rewrite enrich_length in Hge.
      simpl. lia.
    + specialize (IH Hr). simpl. lia.
Qed.





(** ** [coerce_types] *)








(** ** [main] *)

Section MainFacts.
Variable to_datetime : cell -> option Z.
Variable to_numeric : cell -> option Q.

(** The run on a frame that passes the schema check. *)
Lemma main_completes listings lk :
  missing_cols (standardise_columns listings) = [] ->
  main to_datetime to_numeric listings lk =
  Completed
    {| clean := List.map select_out (enrich (dedupe (valid_rows to_datetime to_numeric listings)).1 lk);
       report :=
         {| input_rows := length (rows listings);
            validation_issues := (validate (typed_frame to_datetime to_numeric listings)).2;
            rows_removed_invalid :=
              length (select (List.map knot (validate (typed_frame to_datetime to_numeric listings)).1)
                             (typed_frame to_datetime to_numeric listings));
            rows_removed_duplicates := (dedupe (valid_rows to_datetime to_numeric listings)).2;
            output := quality_stats (frame_of
              (List.map select_out (enrich (dedupe (valid_rows to_datetime to_numeric listings)).1 lk))) |};
       invalid_rows :=
         select (List.map knot (validate (typed_frame to_datetime to_numeric listings)).1) (typed_frame to_datetime to_numeric listings) |}.
Proof. intros Hm. unfold main. rewrite Hm. reflexivity. Qed.

Lemma main_exits listings lk :
  missing_cols (standardise_columns listings) <> [] ->
  main to_datetime to_numeric listings lk = SystemExit (missing_cols (standardise_columns listings)).
Proof.
  intros Hm. unfold main.
  destruct (missing_cols (standardise_columns listings)); [contradiction|reflexivity].
Qed.

Lemma typed_frame_length listings : length (typed_frame to_datetime to_numeric listings) = length (rows listings).
Proof. unfold typed_frame, coerce_types. now rewrite length_map. Qed.

Lemma valid_invalid_length listings :
  (length (select (List.map knot (validate (typed_frame to_datetime to_numeric listings)).1) (typed_frame to_datetime to_numeric listings))
   + length (valid_rows to_datetime to_numeric listings))%nat = length (rows listings).
Proof.
  unfold valid_rows. cbv zeta. rewrite select_valid, select_invalid.
  rewrite <- typed_frame_length.
  rewrite <- (Permutation_length (filter_partition all_rules (typed_frame to_datetime to_numeric listings))).
  rewrite length_app. lia.
Qed.

Lemma valid_rows_valid listings r : In r (valid_rows to_datetime to_numeric listings) -> spec_valid r.
Proof.
  unfold valid_rows. cbv zeta. rewrite select_valid.
  intros Hr. apply List.filter_In in Hr. now apply all_rules_spec.
Qed.

Lemma dedupe_In df r : In r (dedupe df).1 -> In r df.
Proof.
  unfold dedupe. cbn [fst]. intros Hr. apply drop_seen_In in Hr.
  now apply (stable_sort_In sort_cmp df r).
Qed.

Lemma dedupe_length df : ((dedupe df).2 <= length df)%nat /\
  (length df - (dedupe df).2)%nat = length (dedupe df).1.
Proof.
  unfold dedupe. cbn [fst snd].
  pose proof (drop_seen_length natural_key ∅ (stable_sort sort_cmp df)) as Hlen.
  rewrite stable_sort_length in Hlen. unfold drop_duplicates. lia.
Qed.

End MainFacts.

(** C4, as the code has it.  In the report of a completed run,
    [rows_removed_invalid + valid_row_count = input.rows], where
    [valid_row_count] counts the rows the validator marked valid.  The
    duplicates removed are among the valid rows, and
    [valid_row_count - rows_removed_duplicates] is the number of rows handed
    to the join: it is at most [output.row_count], and equal to it when no
    two lookup rows have the same title-cased category. *)
Theorem report_totals (to_datetime : cell -> option Z) (to_numeric : cell -> option Q)
  (listings : raw_frame) (lk : list lookup_row) :
  missing_cols (standardise_columns listings) = [] ->
  exists r, main to_datetime to_numeric listings lk = Completed r /\
    let valid_row_count := length (valid_rows to_datetime to_numeric listings) in
    (rows_removed_invalid (report r) + valid_row_count)%nat = input_rows (report r)
    /\ input_rows (report r) = length (rows listings)
    /\ (rows_removed_duplicates (report r) <= valid_row_count)%nat
    /\ row_count (output (report r)) = length (clean r)
    /\ (valid_row_count - rows_removed_duplicates (report r) <= row_count (output (report r)))%nat
    /\ (unique_categories lk ->
        (valid_row_count - rows_removed_duplicates (report r))%nat
        = row_count (output (report r))).
Proof.
  intros Hm. eexists. split; [now apply main_completes|].
  cbv zeta. cbn [report clean rows_removed_invalid input_rows rows_removed_duplicates
                 output row_count quality_stats frame_of sf_len].
  destruct (dedupe_length (valid_rows to_datetime to_numeric listings)) as [Hle Hlen].
  repeat match goal with |- _ /\ _ => split end.
  - apply valid_invalid_length.
  - reflexivity.
  - exact Hle.
  - reflexivity.
  - rewrite length_map, Hlen. apply enrich_length_ge.
  - intros Hu. rewrite length_map, Hlen.
    symmetry. now apply enrich_unique_length.
Qed.

(** The second equation fails on a lookup with a repeated category: of the
    six rows of the sample four are valid and one is a duplicate, and the
    three rows left come out as five. *)
Lemma report_totals_break :
  exists r,
    main Sample.to_datetime Sample.to_numeric Sample.table Sample.twice = Completed r
    /\ length (valid_rows Sample.to_datetime Sample.to_numeric Sample.table) = 4%nat
    /\ rows_removed_duplicates (report r) = 1%nat
    /\ row_count (output (report r)) = 5%nat
    /\ (length (valid_rows Sample.to_datetime Sample.to_numeric Sample.table)
        - rows_removed_duplicates (report r))%nat <> row_count (output (report r)).
Proof.
  eexists. split; [apply main_completes; reflexivity|].
  cbn [report rows_removed_duplicates output row_count quality_stats frame_of sf_len].
  repeat match goal with |- _ /\ _ => split end; vm_compute; congruence.
Qed.

Lemma report_totals_sample :
  exists r,
    main Sample.to_datetime Sample.to_numeric Sample.table Sample.lookup = Completed r /\
    let valid_row_count :=
      length (valid_rows Sample.to_datetime Sample.to_numeric Sample.table) in
    (rows_removed_invalid (report r) + valid_row_count)%nat = input_rows (report r)
    /\ input_rows (report r) = length (rows Sample.table)
    /\ (rows_removed_duplicates (report r) <= valid_row_count)%nat
    /\ row_count (output (report r)) = length (clean r)
    /\ (valid_row_count - rows_removed_duplicates (report r) <= row_count (output (report r)))%nat
    /\ (unique_categories Sample.lookup ->
        (valid_row_count - rows_removed_duplicates (report r))%nat
        = row_count (output (report r))).
Proof.
  exact (report_totals Sample.to_datetime Sample.to_numeric Sample.table Sample.lookup eq_refl).
Defined.

(** C9. Every row of the clean table of a completed run is the selection
    of a row the validator marked valid, with a segment: its date is
    present, its price is present and positive, its region and its condition
    are in their vocabularies, and its seller, category and item are present
    and not blank. *)
Theorem clean_rows_valid (to_datetime : cell -> option Z) (to_numeric : cell -> option Q)
  (listings : raw_frame) (lk : list lookup_row) :
  missing_cols (standardise_columns listings) = [] ->
  exists r, main to_datetime to_numeric listings lk = Completed r /\
    List.Forall out_valid (clean r) /\
    List.Forall (fun o => exists x seg,
      In x (valid_rows to_datetime to_numeric listings) /\ spec_valid x /\
      o = select_out {| listing := x; segment := seg |}) (clean r).
Proof.
  intros Hm. eexists. split; [now apply main_completes|]. cbn [clean].
  assert (Hsrc : forall o,
    In o (List.map select_out
            (enrich (dedupe (valid_rows to_datetime to_numeric listings)).1 lk)) ->
    exists x seg, In x (valid_rows to_datetime to_numeric listings) /\ spec_valid x /\
      o = select_out {| listing := x; segment := seg |}).
  { intros o Ho. apply in_map_iff in Ho. destruct Ho as ([x seg] & <- & Hx).
    apply enrich_In, dedupe_In in Hx. cbn [listing] in Hx.
    exists x, seg. split; [exact Hx|]. split; [|reflexivity].
    now apply valid_rows_valid in Hx. }
  split; rewrite List.Forall_forall; intros o Ho; destruct (Hsrc o Ho) as (x & seg & Hx & Hv & ->).
  - destruct Hv as (Hd & Hp & Hr & Hc & _ & Hs & Hcat & Hi & _).
    unfold out_valid, select_out. cbn. tauto.
  - now exists x, seg.
Qed.

Lemma clean_rows_valid_sample :
  exists r,
    main Sample.to_datetime Sample.to_numeric Sample.table Sample.lookup = Completed r /\
    List.Forall out_valid (clean r) /\
    List.Forall (fun o => exists x seg,
      In x (valid_rows Sample.to_datetime Sample.to_numeric Sample.table) /\ spec_valid x /\
      o = select_out {| listing := x; segment := seg |}) (clean r).
Proof.
  exact (clean_rows_valid Sample.to_datetime Sample.to_numeric Sample.table Sample.lookup eq_refl).
Defined.



(** ** [quality_stats] *)

Lemma value_counts_lookup (col : list cell) (k : cell) :
  value_counts col !! k = bucket (occurrences k col).
Proof.
  unfold bucket, occurrences.
  induction col as [|v col IH]; [reflexivity|].
  cbn [value_counts fold_right List.filter]. fold (value_counts col).
  destruct (bool_decide_reflect (v = k)) as [->|Hne].
  - rewrite lookup_insert_eq, IH. cbn [length].
    now destruct (length (List.filter _ col)).
  - now rewrite lookup_insert_ne.
Qed.

Lemma strongly_sorted_impl {A} (R S : A -> A -> Prop) l :
  (forall x y, R x y -> S x y) -> StronglySorted R l -> StronglySorted S l.
Proof.
  intros HRS. induction 1 as [|x l Hl IH Hx]; constructor; [exact IH|].
  revert Hx. apply List.Forall_impl. intros y. apply HRS.
Qed.

(** X14. On the empty table [quality_stats] reports no row, no price
    statistic and empty mappings; the five price statistics are missing
    exactly when no price is present.  Each frequency mapping has one key for
    each value that occurs in its column, the missing value included, with
    the number of its occurrences, and no other key; the mapping of the
    segments is empty when the frame has no segment column. *)
Theorem quality_stats_nulls_and_buckets (df : stats_frame) :
  quality_stats (frame_of [])
  = {| row_count := O; price := no_price; by_region := ∅; by_category := ∅; by_segment := ∅ |}
  /\ row_count (quality_stats df) = sf_len df
  /\ (prices df = [] <-> price (quality_stats df) = no_price)
  /\ (prices df <> [] ->
      is_Some (p_min (price (quality_stats df))) /\
      is_Some (p_max (price (quality_stats df))) /\
      is_Some (p_avg (price (quality_stats df))) /\
      is_Some (p_p50 (price (quality_stats df))) /\
      is_Some (p_p95 (price (quality_stats df))))
  /\ (forall k, by_region (quality_stats df) !! k = bucket (occurrences k (sf_region df)))
  /\ (forall k, by_category (quality_stats df) !! k = bucket (occurrences k (sf_category df)))
  /\ (forall col k, sf_segment df = Some col ->
        by_segment (quality_stats df) !! k = bucket (occurrences k col))
  /\ (sf_segment df = None -> by_segment (quality_stats df) = ∅).
Proof.
  repeat match goal with |- _ /\ _ => split end.
  - reflexivity.
  - reflexivity.
  - unfold quality_stats. fold (prices df). cbn [price].
    destruct (prices df); split; try reflexivity; discriminate.
  - intros Hp. unfold quality_stats. fold (prices df). cbn [price p_min p_max p_avg p_p50 p_p95].
    destruct (prices df) as [|x l] eqn:E; [contradiction|]. repeat split; eauto.
  - intros k. apply value_counts_lookup.
  - intros k. apply value_counts_lookup.
  - intros col k Hs. unfold quality_stats. cbn [by_segment]. rewrite Hs.
    apply value_counts_lookup.
  - intros Hs. unfold quality_stats. cbn [by_segment]. now rewrite Hs.
Qed.

(** ** The scenarios of the specification, run on the sample *)

Example title_words : Text.title "it's a  tEST-cASE 1abc" = "It'S A  Test-Case 1Abc".
Proof. reflexivity. Qed.

Example strip_blanks :
  Text.strip (String (ascii_of_nat 9) " north  ") = "north"
  /\ Text.strip "   " = "" /\ Text.lower "ReFurbished" = "refurbished".
Proof. repeat split; reflexivity. Qed.

(** The row [("2024-01-05","S1","north","Tools","I1","19.99","new")] is
    normalised to region [North], is valid, and comes out with its price;
    the row priced [-5] and the row without date are invalid; of the two
    rows of seller [S3] the one priced 10 survives; the category [Gadgets],
    absent from the lookup, keeps its row with a missing segment. *)
Example sample_clean_table :
  exists r, Sample.run_table = Completed r /\
    List.map (fun o => (o_seller_id o, o_region o, o_category o, o_segment o, o_price_gbp o))
             (clean r)
    = [ (Some "S1", Some "North", Some "Tools", Some "DIY", Some (1999 # 100));
        (Some "S3", Some "East", Some "Tools", Some "DIY", Some (10 # 1));
        (Some "S4", Some "West", Some "Gadgets", None, Some (15 # 2)) ]
    /\ List.map seller_id (invalid_rows r) = [Some "S2"; Some "S5"].
Proof. eexists. split; [vm_compute; reflexivity|]. split; vm_compute; reflexivity. Qed.

Example sample_report :
  exists r, Sample.run_table = Completed r /\
    input_rows (report r) = 6%nat /\
    rows_removed_invalid (report r) = 2%nat /\
    rows_removed_duplicates (report r) = 1%nat /\
    row_count (output (report r)) = 3%nat /\
    tally_of (validation_issues (report r)) InvalidDate = Some 1%nat /\
    tally_of (validation_issues (report r)) InvalidPrice = Some 2%nat /\
    tally_of (validation_issues (report r)) InvalidCondition = Some 1%nat /\
    by_segment (output (report r)) !! Some "DIY" = Some 2%nat /\
    by_segment (output (report r)) !! None = Some 1%nat /\
    p_min (price (output (report r))) = Some (15 # 2) /\
    p_max (price (output (report r))) = Some (1999 # 100).
Proof.
  eexists. split; [vm_compute; reflexivity|].
  repeat match goal with |- _ /\ _ => split end; vm_compute; reflexivity.
Qed.

Example sample_missing_columns :
  main Sample.to_datetime Sample.to_numeric Sample.short_table Sample.lookup
  = SystemExit ["price_gbp"; "condition"].
Proof. vm_compute. reflexivity. Qed.

(** * Further properties of the stages

    ** [standardise_columns] and the schema check *)

Lemma lower_strip_idem c :
  Text.lower (Text.strip (Text.lower (Text.strip c))) = Text.lower (Text.strip c).
Proof.
  now rewrite TextFacts.strip_lower, TextFacts.strip_idem, TextFacts.lower_idem.
Qed.

(** X1. Standardising the labels twice is standardising them once: every
    standardised label is trimmed and in lower case already.  The rows and
    the number of labels are untouched. *)
Theorem standardise_columns_idempotent (df : raw_frame) :
  standardise_columns (standardise_columns df) = standardise_columns df
  /\ List.Forall (fun c => Text.strip c = c /\ Text.lower c = c)
                 (columns (standardise_columns df))
  /\ rows (standardise_columns df) = rows df
  /\ length (columns (standardise_columns df)) = length (columns df).
Proof.
  unfold standardise_columns. cbn [columns rows]. repeat split.
  - f_equal. rewrite List.map_map. apply List.map_ext. intros c. apply lower_strip_idem.
  - rewrite List.Forall_forall. intros c Hc. apply in_map_iff in Hc.
    destruct Hc as (h & <- & _). split.
    + now rewrite TextFacts.strip_lower, TextFacts.strip_idem.
    + apply TextFacts.lower_idem.
  - apply length_map.
Qed.

Lemma filter_sublist {A} (p : A -> bool) (l : list A) : List.filter p l `sublist_of` l.
Proof.
  induction l as [|x l IH]; simpl; [constructor|].
  destruct (p x); now constructor.
Qed.

Lemma required_cols_NoDup : List.NoDup REQUIRED_COLS.
Proof. unfold REQUIRED_COLS. repeat constructor; simpl; intuition discriminate. Qed.

(** X2. The list of missing columns holds exactly the required names that
    are not labels of the frame, each once and in the order of
    [REQUIRED_COLS], so it has at most seven names; it is empty exactly when
    every required name is a label of the frame. *)
Theorem missing_cols_ordered (df : raw_frame) :
  (forall c, In c (missing_cols df) <-> In c REQUIRED_COLS /\ ~ In c (columns df))
  /\ missing_cols df `sublist_of` REQUIRED_COLS
  /\ List.NoDup (missing_cols df)
  /\ (length (missing_cols df) <= 7)%nat
  /\ (missing_cols df = [] <-> forall c, In c REQUIRED_COLS -> In c (columns df)).
Proof.
  assert (Hin : forall c, In c (missing_cols df) <->
                          In c REQUIRED_COLS /\ ~ In c (columns df)).
  { intros c. unfold missing_cols.
    rewrite List.filter_In, negb_true_iff, bool_decide_eq_false, list_elem_of_In.
    reflexivity. }
  split; [exact Hin|].
  unfold missing_cols. split; [apply filter_sublist|]. split; [|split].
  - apply List.NoDup_filter, required_cols_NoDup.
  - etransitivity; [apply sublist_length, filter_sublist|]. reflexivity.
  - fold (missing_cols df). split.
    + intros Hnil c Hc. destruct (bool_decide_reflect (c ∈ columns df)) as [Hc'|Hc'].
      * now apply list_elem_of_In.
      * assert (Hf : In c (missing_cols df)).
        { apply Hin. split; [exact Hc|]. now rewrite <- list_elem_of_In. }
        rewrite Hnil in Hf. destruct Hf.
    + intros Hall. destruct (missing_cols df) as [|c cs] eqn:Hf; [reflexivity|].
      destruct (proj1 (Hin c) (or_introl eq_refl)) as [Hc Hn].
      destruct Hn. now apply Hall.
Qed.

(** ** [validate]: the tallies against the rows removed *)

Lemma tally_of_breaks ρ df :
  tallied ρ -> tally_of (validate df).2 ρ = Some (tally (breaks ρ) df).
Proof.
  destruct ρ as [| | | |c|c]; intros Hρ; try reflexivity; unfold validate;
    cbn [snd tally_of missing_nulls missing_empty breaks].
  - unfold null_counts.
    now rewrite (assoc_map (fun k => tally (fun r => isna (column k r)) df) c _ Hρ).
  - unfold empty_counts.
    now rewrite (assoc_map (fun k => tally (fun r =>
      String.eqb (Text.strip (astype_str (na_text k) (column k r))) "") df) c _ Hρ).
Qed.

Lemma breaks_fails ρ r : breaks ρ r = true <-> fails r ρ.
Proof.
  destruct ρ as [| | | |c|c]; cbn [breaks fails].
  - apply is_invalid_date_spec.
  - rewrite <- is_invalid_price_spec. destruct (is_invalid_price r); intuition congruence.
  - unfold is_invalid_region. rewrite <- isin_spec.
    destruct (isin (region r) VALID_REGIONS); simpl; intuition congruence.
  - unfold is_invalid_condition. rewrite <- isin_spec.
    destruct (isin (condition r) VALID_CONDITION); simpl; intuition congruence.
  - destruct (column c r); simpl; intuition congruence.
  - apply empty_text_spec.
Qed.

Lemma gating_breaks_invalid ρ r : gating ρ -> breaks ρ r = true -> all_rules r = false.
Proof.
  intros Hg Hb. apply all_rules_false, invalid_iff_fails.
  exists ρ. split; [exact Hg|]. now apply breaks_fails.
Qed.

Lemma invalid_breaks r : all_rules r = false -> exists ρ, gating ρ /\ breaks ρ r = true.
Proof.
  intros Hr. apply all_rules_false, invalid_iff_fails in Hr.
  destruct Hr as (ρ & Hg & Hf). exists ρ. split; [exact Hg|]. now apply breaks_fails.
Qed.

Lemma tally_le_tally {A} (p q : A -> bool) (l : list A) :
  (forall x, In x l -> p x = true -> q x = true) -> (tally p l <= tally q l)%nat.
Proof.
  unfold tally. induction l as [|x l IH]; intros Hpq; simpl; [lia|].
  assert (IH' : (length (List.filter p l) <= length (List.filter q l))%nat).
  { apply IH. intros y Hy. apply Hpq. now right. }
  destruct (p x) eqn:Hp.
  - rewrite (Hpq x (or_introl eq_refl) Hp). simpl. lia.
  - destruct (q x); simpl; lia.
Qed.

Lemma tally_zero {A} (p : A -> bool) (l : list A) :
  tally p l = O <-> forall x, In x l -> p x = false.
Proof.
  unfold tally. induction l as [|x l IH]; simpl; [intuition|].
  destruct (p x) eqn:Hp; simpl.
  - split; [discriminate|]. intros Hall. specialize (Hall x (or_introl eq_refl)). congruence.
  - rewrite IH. split.
    + intros Hall y [<-|Hy]; auto.
    + intros Hall y Hy. apply Hall. now right.
Qed.

(** X3. The number of rows [validate] rejects bounds every tally of a
    gating rule from above and is at most the number of rows; no row is
    rejected exactly when all these tallies are zero.  So a report with
    zero tallies for the four checks and for the null and empty counts of the
    essential columns removed no row as invalid, and conversely. *)
Theorem invalid_rows_and_tallies (df : list typed_row) :
  let rejected := length (select (List.map knot (validate df).1) df) in
  (forall ρ n, gating ρ -> tally_of (validate df).2 ρ = Some n -> (n <= rejected)%nat)
  /\ (rejected <= length df)%nat
  /\ (rejected = O <-> forall ρ, gating ρ -> tally_of (validate df).2 ρ = Some O).
Proof.
  cbv zeta. rewrite select_invalid.
  change (length (List.filter (fun r => negb (all_rules r)) df))
    with (tally (fun r => negb (all_rules r)) df).
  split; [|split].
  - intros ρ n Hg Hn. rewrite (tally_of_breaks ρ df (gating_tallied ρ Hg)) in Hn.
    injection Hn as <-. apply tally_le_tally. intros r _ Hb.
    now rewrite (gating_breaks_invalid ρ r Hg Hb).
  - unfold tally. apply List.filter_length_le.
  - rewrite tally_zero. split.
    + intros Hall ρ Hg. rewrite (tally_of_breaks ρ df (gating_tallied ρ Hg)).
      f_equal. apply tally_zero. intros r Hr.
      destruct (breaks ρ r) eqn:Hb; [|reflexivity].
      specialize (Hall r Hr). rewrite (gating_breaks_invalid ρ r Hg Hb) in Hall. discriminate.
    + intros Hall r Hr. destruct (all_rules r) eqn:Hv; [reflexivity|].
      destruct (invalid_breaks r Hv) as (ρ & Hg & Hb).
      specialize (Hall ρ Hg). rewrite (tally_of_breaks ρ df (gating_tallied ρ Hg)) in Hall.
      injection Hall as Hall. rewrite tally_zero in Hall. rewrite (Hall r Hr) in Hb. discriminate.
Qed.

Lemma vocabulary_nonblank s :
  s ∈ VALID_REGIONS \/ s ∈ VALID_CONDITION -> Text.strip s <> "".
Proof.
  unfold VALID_REGIONS, VALID_CONDITION.
  rewrite !elem_of_union, !elem_of_singleton.
  intros [[[[->| ->]| ->]| ->]|[[->| ->]| ->]]; discriminate.
Qed.

Lemma tally_disjoint_sum {A} (p1 p2 q : A -> bool) (l : list A) :
  (forall x, p1 x = true -> q x = true) ->
  (forall x, p2 x = true -> q x = true) ->
  (forall x, p1 x = true -> p2 x = false) ->
  (tally p1 l + tally p2 l <= tally q l)%nat.
Proof.
  intros H1 H2 H12. unfold tally. induction l as [|x l IH]; simpl; [lia|].
  destruct (p1 x) eqn:E1.
  - rewrite (H12 x E1), (H1 x E1). simpl. lia.
  - destruct (p2 x) eqn:E2.
    + rewrite (H2 x E2). simpl. lia.
    + destruct (q x); simpl; lia.
Qed.

(** X4. [region] and [condition] are not among the essential columns, yet
    a missing or blank one never passes: the rows counted under
    [missing_nulls] or [missing_empty] for [region] are all counted under
    [invalid_region], and likewise for [condition]. *)
Theorem enum_tally_covers_missing (df : list typed_row) :
  (exists a b,
     assoc "region" (missing_nulls (validate df).2) = Some a /\
     assoc "region" (missing_empty (validate df).2) = Some b /\
     (a + b <= invalid_region (validate df).2)%nat)
  /\ (exists a b,
     assoc "condition" (missing_nulls (validate df).2) = Some a /\
     assoc "condition" (missing_empty (validate df).2) = Some b /\
     (a + b <= invalid_condition (validate df).2)%nat).
Proof.
  split.
  - exists (tally (breaks (MissingNull "region")) df),
           (tally (breaks (MissingEmpty "region")) df).
    split; [reflexivity|]. split; [reflexivity|].
    apply (tally_disjoint_sum _ _ is_invalid_region); cbn [breaks]; intros r;
      cbn [column String.eqb Ascii.eqb Bool.eqb]; unfold is_invalid_region, isin, astype_str;
      destruct (region r) as [s|]; simpl; try congruence.
    intros Hs. apply String.eqb_eq in Hs. rewrite negb_true_iff, bool_decide_eq_false.
    intros Hin. apply (vocabulary_nonblank s); auto.
  - exists (tally (breaks (MissingNull "condition")) df),
           (tally (breaks (MissingEmpty "condition")) df).
    split; [reflexivity|]. split; [reflexivity|].
    apply (tally_disjoint_sum _ _ is_invalid_condition); cbn [breaks]; intros r;
      cbn [column String.eqb Ascii.eqb Bool.eqb]; unfold is_invalid_condition, isin, astype_str;
      destruct (condition r) as [s|]; simpl; try congruence.
    intros Hs. apply String.eqb_eq in Hs. rewrite negb_true_iff, bool_decide_eq_false.
    intros Hin. apply (vocabulary_nonblank s); auto.
Qed.

(** ** [dedupe]: what it removes *)

Lemma insert_least {A} (cmp : A -> A -> comparison) (x : A) (l : list A) :
  List.Forall (fun y => leb cmp x y = true) l -> insert cmp x l = x :: l.
Proof.
  destruct l as [|y l]; [reflexivity|]. intros Hall.
  apply List.Forall_inv in Hall. simpl. now rewrite Hall.
Qed.

Lemma stable_sort_sorted_id {A} (cmp : A -> A -> comparison) (l : list A) :
  StronglySorted (fun x y => leb cmp x y = true) l -> stable_sort cmp l = l.
Proof.
  induction 1 as [|x l Hl IH Hx]; [reflexivity|].
  simpl. rewrite IH. now apply insert_least.
Qed.

(** X5. Deduplicating a deduplicated table changes nothing and removes
    no row. *)
Theorem dedupe_idempotent (df : list typed_row) :
  dedupe (dedupe df).1 = ((dedupe df).1, O).
Proof.
  unfold dedupe at 1.
  assert (Hsorted : StronglySorted (fun x y => leb sort_cmp x y = true) (dedupe df).1).
  { unfold dedupe. cbn [fst]. apply drop_seen_sorted. apply stable_sort_sorted; exact _. }
  assert (Hkeys : List.NoDup (List.map natural_key (dedupe df).1)).
  { unfold dedupe. cbn [fst]. apply drop_seen_NoDup. }
  rewrite (stable_sort_sorted_id sort_cmp _ Hsorted).
  unfold drop_duplicates at 1 2.
  rewrite (drop_seen_id natural_key ∅ _ Hkeys) by (intros r _; apply not_elem_of_empty).
  now rewrite Nat.sub_diag.
Qed.

Lemma drop_seen_count {A K} `{Countable K} (key : A -> K) (seen : gset K) (l : list A) :
  length (drop_seen key seen l) = size (list_to_set (List.map key l) ∖ seen : gset K).
Proof.
  revert seen; induction l as [|x l IH]; intros seen.
  - replace (list_to_set (List.map key []) ∖ seen : gset K) with (∅ : gset K) by set_solver.
    now rewrite size_empty.
  - cbn [drop_seen List.map]. rewrite list_to_set_cons.
    destruct (decide (key x ∈ seen)) as [Hx|Hx].
    + rewrite IH. f_equal. set_solver.
    + cbn [length]. rewrite IH.
      replace (({[key x]} ∪ list_to_set (List.map key l)) ∖ seen : gset K)
        with ({[key x]} ∪ (list_to_set (List.map key l) ∖ ({[key x]} ∪ seen)) : gset K).
      * rewrite (size_union ({[key x]} : gset K)) by set_solver. now rewrite size_singleton.
      * apply set_eq. intros k. destruct (decide (k = key x)); set_solver.
Qed.

Lemma size_list_to_set_le {K} `{Countable K} (l : list K) :
  (size (list_to_set l : gset K) <= length l)%nat
  /\ (size (list_to_set l : gset K) = length l -> List.NoDup l).
Proof.
  induction l as [|x l [IHle IHnd]].
  { split; [|constructor]. replace (list_to_set [] : gset K) with (∅ : gset K) by set_solver.
    rewrite size_empty. simpl. lia. }
  rewrite list_to_set_cons. cbn [length].
  destruct (decide (x ∈ (list_to_set l : gset K))) as [Hx|Hx].
  - replace ({[x]} ∪ list_to_set l : gset K) with (list_to_set l : gset K) by set_solver.
    split; [lia|lia].
  - rewrite (size_union ({[x]} : gset K)) by set_solver. rewrite size_singleton. split; [lia|].
    intros Hs. constructor; [|apply IHnd; lia].
    intros Hin. apply Hx. apply elem_of_list_to_set. now apply list_elem_of_In.
Qed.

Lemma list_to_set_keys_perm {A K} `{Countable K} (key : A -> K) (l l' : list A) :
  Permutation l l' ->
  (list_to_set (List.map key l) : gset K) = list_to_set (List.map key l').
Proof.
  intros Hp. apply set_eq. intros k. rewrite !elem_of_list_to_set, !list_elem_of_In.
  rewrite !in_map_iff. split; intros (x & E & Hx); exists x; (split; [exact E|]).
  - now apply (Permutation_in _ Hp).
  - now apply (Permutation_in _ (Permutation_sym Hp)).
Qed.

(** X6. [dedupe] returns one row for each distinct natural key: the
    table it returns has as many rows as the input has distinct keys, the
    count it returns is the number of rows minus the number of distinct
    keys, and this count is zero exactly when no two rows of the input share
    their key. *)
Theorem dedupe_counts_distinct_keys (df : list typed_row) :
  let distinct := size (list_to_set (List.map natural_key df) : gset (option Z * cell * cell)) in
  length (dedupe df).1 = distinct
  /\ (dedupe df).2 = (length df - distinct)%nat
  /\ (distinct <= length df)%nat
  /\ ((dedupe df).2 = O <-> List.NoDup (List.map natural_key df)).
Proof.
  cbv zeta.
  assert (Hlen : length (dedupe df).1
                 = size (list_to_set (List.map natural_key df) : gset (option Z * cell * cell))).
  { unfold dedupe, drop_duplicates. cbn [fst]. rewrite drop_seen_count.
    rewrite (list_to_set_keys_perm natural_key _ df (stable_sort_perm sort_cmp df)).
    f_equal. set_solver. }
  destruct (size_list_to_set_le (List.map natural_key df)) as [Hle Hnd].
  rewrite length_map in Hle, Hnd.
  split; [exact Hlen|]. split; [|split; [exact Hle|]].
  - unfold dedupe in *. cbn [fst snd] in *. now rewrite Hlen.
  - unfold dedupe in *. cbn [fst snd] in *. rewrite Hlen. split.
    + intros Hz. apply Hnd. lia.
    + intros Hk. rewrite size_list_to_set by now apply NoDup_ListNoDup.
      rewrite length_map. lia.
Qed.

(** ** [enrich]: where a segment comes from *)

Lemma matching_category lookup r r' :
  category r = category r' -> matching lookup r = matching lookup r'.
Proof. unfold matching. now intros ->. Qed.

Lemma matching_In lookup r l :
  In l (matching lookup r) <-> In l lookup /\ Text.title <$> lk_category l = category r.
Proof. unfold matching. now rewrite List.filter_In, bool_decide_eq_true. Qed.

Lemma joined_In lookup r x :
  In x (joined lookup r) <->
  listing x = r /\
  ((matching lookup r = [] /\ segment x = None) \/
   exists l, In l (matching lookup r) /\ segment x = lk_segment l).
Proof.
  unfold joined. destruct (matching lookup r) as [|l ls] eqn:Hm.
  - split.
    + intros [<-|[]]. split; [reflexivity|]. now left.
    + intros [<- [[_ Hs]|(l & [] & _)]]. left. destruct x as [r s]. simpl in *. now subst.
  - rewrite in_map_iff. split.
    + intros (l' & <- & Hl'). split; [reflexivity|]. right. now exists l'.
    + intros [<- [[[=] _]|(l' & Hl' & Hs)]]. exists l'. split; [|exact Hl'].
      destruct x as [r s]. simpl in *. now subst.
Qed.

(** X7. A segment of the enriched table is never invented: an enriched
    row has a missing segment because no lookup row has its category, or
    carries the segment of a lookup row whose title-cased category is its
    own, and every such pair of a row and a lookup row is in the table.  With
    an empty lookup every row comes out once with a missing segment.  When
    no two lookup rows share a title-cased category, rows of the same
    category get the same segment. *)
Theorem enrich_segment_provenance (df : list typed_row) (lookup : list lookup_row) :
  enrich df [] = List.map (fun r => {| listing := r; segment := None |}) df
  /\ (forall x, In x (enrich df lookup) ->
        (matching lookup (listing x) = [] /\ segment x = None) \/
        exists l, In l lookup /\ Text.title <$> lk_category l = category (listing x)
                  /\ segment x = lk_segment l)
  /\ (forall r l, In r df -> In l lookup -> Text.title <$> lk_category l = category r ->
        In {| listing := r; segment := lk_segment l |} (enrich df lookup))
  /\ (unique_categories lookup ->
      forall x y, In x (enrich df lookup) -> In y (enrich df lookup) ->
        category (listing x) = category (listing y) -> segment x = segment y).
Proof.
  split; [|split; [|split]].
  - rewrite enrich_joined. induction df as [|r df IH]; [reflexivity|].
    cbn [flat_map List.map]. now rewrite IH.
  - intros x Hx. rewrite enrich_joined, in_flat_map in Hx. destruct Hx as (r & _ & Hx).
    apply joined_In in Hx. destruct Hx as [<- [Hnone|(l & Hl & Hs)]]; [now left|].
    right. exists l. apply matching_In in Hl. tauto.
  - intros r l Hr Hl Hc. rewrite enrich_joined, in_flat_map. exists r. split; [exact Hr|].
    apply joined_In. split; [reflexivity|]. right. exists l. split; [|reflexivity].
    now apply matching_In.
  - intros Hu x y Hx Hy Hc.
    rewrite enrich_joined, in_flat_map in Hx, Hy.
    destruct Hx as (r & _ & Hx), Hy as (r' & _ & Hy).
    apply joined_In in Hx, Hy. destruct Hx as [<- Hx], Hy as [<- Hy].
    rewrite <- (matching_category lookup _ _ Hc) in Hy.
    pose proof (matching_unique lookup (listing x) Hu) as Hone.
    destruct (matching lookup (listing x)) as [|l [|l' ls]]; simpl in Hone; [| |lia].
    + destruct Hx as [[_ ->]|(l & [] & _)], Hy as [[_ ->]|(l & [] & _)]. reflexivity.
    + destruct Hx as [[[=] _]|(l1 & [<-|[]] & ->)], Hy as [[[=] _]|(l2 & [<-|[]] & ->)].
      reflexivity.
Qed.

Lemma lstrip_length s :
  (String.length (Text.lstrip s) <= String.length s)%nat
  /\ (String.length (Text.lstrip s) = String.length s -> Text.lstrip s = s).
Proof.
  induction s as [|c s [IHle IHeq]]; simpl; [auto|].
  destruct (Text.isspace c); simpl; split; auto; lia.
Qed.

Lemma rstrip_length s :
  (String.length (Text.rstrip s) <= String.length s)%nat
  /\ (String.length (Text.rstrip s) = String.length s -> Text.rstrip s = s).
Proof.
  induction s as [|c s [IHle IHeq]]; simpl; [auto|].
  destruct (Text.rstrip s) as [|d r] eqn:Hr.
  - destruct (Text.isspace c); simpl in *; split; try lia.
    intros Hlen. destruct s; [reflexivity|simpl in Hlen; lia].
  - simpl in *. split; [lia|]. intros Hlen. f_equal. apply IHeq. lia.
Qed.

Lemma strip_fixed_length s :
  String.length (Text.strip s) = String.length s -> Text.strip s = s.
Proof.
  unfold Text.strip. intros Hlen.
  destruct (lstrip_length s) as [Hl Hleq], (rstrip_length (Text.lstrip s)) as [Hr Hreq].
  assert (E : Text.lstrip s = s) by (apply Hleq; lia).
  rewrite E in *. now apply Hreq.
Qed.

Lemma title_from_length prev s : String.length (Text.title_from prev s) = String.length s.
Proof.
  revert prev; induction s as [|c s IH]; intros prev; [reflexivity|].
  rewrite TextFacts.title_from_cons. simpl. now rewrite IH.
Qed.

(** X8. The lookup categories are title-cased but not trimmed, while the
    categories of the listings are trimmed: a lookup row whose category has
    white space at either end is joined to no row of [coerce_types]. *)
Theorem untrimmed_lookup_never_matches (to_datetime : cell -> option Z)
  (to_numeric : cell -> option Q) (labels : list string) (raw : list cell)
  (lookup : list lookup_row) (l : lookup_row) (s : string) :
  lk_category l = Some s -> Text.strip s <> s ->
  ~ In l (matching lookup (coerce_row to_datetime to_numeric labels raw)).
Proof.
  intros Hs Hne Hin. apply matching_In in Hin. destruct Hin as [_ Hc].
  rewrite Hs in Hc. cbn [coerce_row category] in Hc.
  destruct (at_label labels raw "category") as [c|]; [|discriminate].
  simpl in Hc. injection Hc as Hc.
  assert (Ht : Text.strip (Text.title s) = Text.title s)
    by (rewrite Hc; apply TextFacts.strip_title_strip).
  rewrite TextFacts.strip_title in Ht.
  apply Hne, strip_fixed_length.
  unfold Text.title in Ht. rewrite <- (title_from_length false (Text.strip s)), Ht.
  apply title_from_length.
Qed.

Lemma untrimmed_lookup_never_matches_sample :
  ~ In Sample.blank_tools
       (matching [Sample.blank_tools]
          (coerce_row Sample.to_datetime Sample.to_numeric REQUIRED_COLS Sample.padded)).
Proof.
  apply (untrimmed_lookup_never_matches _ _ _ _ _ Sample.blank_tools " Tools");
    [reflexivity|discriminate].
Defined.

(** ** [quality_stats]: the order of the price statistics, the totals *)







Lemma total_value_counts (col : list cell) : total (value_counts col) = length col.
Proof.
  unfold total. induction col as [|v col IH]; [reflexivity|].
  cbn [value_counts fold_right length]. fold (value_counts col).
  destruct (value_counts col !! v) as [n|] eqn:Hv; simpl default.
  - rewrite <- insert_delete_eq.
    rewrite map_fold_insert_L; [|intros; lia|apply lookup_delete_eq].
    rewrite (map_fold_delete_L _ _ v n (value_counts col)) in IH;
      [|intros; lia|exact Hv].
    lia.
  - rewrite map_fold_insert_L; [|intros; lia|exact Hv]. lia.
Qed.

(** X10. The counts of a frequency mapping add up to the number of cells
    of its column, missing cells included: in the report of a table the
    counts by region, by category and by segment each add up to
    [row_count]. *)
Theorem frequency_totals (df : stats_frame) :
  total (by_region (quality_stats df)) = length (sf_region df)
  /\ total (by_category (quality_stats df)) = length (sf_category df)
  /\ (forall col, sf_segment df = Some col ->
        total (by_segment (quality_stats df)) = length col)
  /\ (forall table : list out_row,
        let q := quality_stats (frame_of table) in
        total (by_region q) = row_count q
        /\ total (by_category q) = row_count q
        /\ total (by_segment q) = row_count q).
Proof.
  split; [apply total_value_counts|]. split; [apply total_value_counts|]. split.
  - intros col Hs. unfold quality_stats. cbn [by_segment]. rewrite Hs.
    apply total_value_counts.
  - intros table. cbv zeta. unfold quality_stats, frame_of.
    cbn [by_region by_category by_segment row_count sf_region sf_category sf_segment sf_len].
    rewrite !total_value_counts, !length_map. auto.
Qed.

(** ** [main]: the clean table, the empty frame, the other columns *)

Lemma out_cmp_select x y :
  out_cmp (select_out x) (select_out y) = sort_cmp (listing x) (listing y).
Proof. reflexivity. Qed.

Lemma pairwise_sorted {A} (R : A -> A -> Prop) (l : list A) :
  (forall x y, In x l -> In y l -> R x y) -> StronglySorted R l.
Proof.
  induction l as [|x l IH]; intros HR; constructor.
  - apply IH. intros y z Hy Hz. apply HR; now right.
  - rewrite List.Forall_forall. intros y Hy. apply HR; [now left|now right].
Qed.

Lemma sorted_map {A B} (f : A -> B) (R : B -> B -> Prop) (l : list A) :
  StronglySorted (fun x y => R (f x) (f y)) l -> StronglySorted R (List.map f l).
Proof.
  induction 1 as [|x l Hl IH Hx]; simpl; constructor; [exact IH|].
  rewrite List.Forall_forall in *. intros y Hy. apply in_map_iff in Hy.
  destruct Hy as (z & <- & Hz). now apply Hx.
Qed.

Lemma enrich_sorted df lookup :
  StronglySorted (fun x y => leb sort_cmp x y = true) df ->
  StronglySorted (fun x y => leb sort_cmp (listing x) (listing y) = true) (enrich df lookup).
Proof.
  rewrite enrich_joined. induction 1 as [|r df Hdf IH Hr]; [constructor|].
  cbn [flat_map]. apply StronglySorted_app. split; [|split; [|exact IH]].
  - intros x y Hx Hy. apply list_elem_of_In in Hx, Hy.
    rewrite (joined_listing _ _ _ Hx).
    apply in_flat_map in Hy. destruct Hy as (r' & Hr' & Hy).
    rewrite (joined_listing _ _ _ Hy).
    rewrite List.Forall_forall in Hr. now apply Hr.
  - apply pairwise_sorted. intros x y Hx Hy.
    rewrite (joined_listing _ _ _ Hx), (joined_listing _ _ _ Hy).
    unfold leb. now rewrite (cmp_refl sort_cmp).
Qed.

(** X11. The clean table of a completed run is in the order of the sort
    of [dedupe] (date, seller, item, price), whatever the lookup; when no
    two lookup rows share a title-cased category it has at most one row for
    each natural key (date, seller, item). *)
Theorem clean_sorted_distinct (to_datetime : cell -> option Z)
  (to_numeric : cell -> option Q) (listings : raw_frame) (lk : list lookup_row) :
  missing_cols (standardise_columns listings) = [] ->
  exists r, main to_datetime to_numeric listings lk = Completed r /\
    StronglySorted (fun x y => leb out_cmp x y = true) (clean r) /\
    (unique_categories lk -> List.NoDup (List.map out_key (clean r))).
Proof.
  intros Hm. eexists. split; [now apply main_completes|]. cbn [clean]. split.
  - apply sorted_map.
    eapply strongly_sorted_impl; [|apply enrich_sorted].
    + intros x y Hxy. unfold leb in *. now rewrite out_cmp_select.
    + unfold dedupe. cbn [fst]. apply drop_seen_sorted. apply stable_sort_sorted; exact _.
  - intros Hu. rewrite List.map_map.
    change (fun x => out_key (select_out x)) with (fun x => natural_key (listing x)).
    rewrite <- (List.map_map listing natural_key), (enrich_unique _ lk Hu).
    unfold dedupe. cbn [fst]. apply drop_seen_NoDup.
Qed.

Lemma clean_sorted_distinct_sample :
  exists r,
    main Sample.to_datetime Sample.to_numeric Sample.table Sample.lookup = Completed r /\
    StronglySorted (fun x y => leb out_cmp x y = true) (clean r) /\
    (unique_categories Sample.lookup -> List.NoDup (List.map out_key (clean r))).
Proof.
  exact (clean_sorted_distinct Sample.to_datetime Sample.to_numeric
           Sample.table Sample.lookup eq_refl).
Defined.

(** X12. A run that completes on a frame without rows writes an empty
    clean table and no invalid row; its report counts no input row and no
    removal, every tally is zero, the price statistics are missing and the
    three mappings are empty, whatever the lookup. *)
Theorem main_on_no_rows (to_datetime : cell -> option Z) (to_numeric : cell -> option Q)
  (listings : raw_frame) (lk : list lookup_row) (r : run) :
  main to_datetime to_numeric listings lk = Completed r ->
  rows listings = [] ->
  clean r = [] /\ invalid_rows r = []
  /\ input_rows (report r) = O
  /\ rows_removed_invalid (report r) = O
  /\ rows_removed_duplicates (report r) = O
  /\ (forall ρ, tallied ρ -> tally_of (validation_issues (report r)) ρ = Some O)
  /\ output (report r)
     = {| row_count := O; price := no_price; by_region := ∅;
          by_category := ∅; by_segment := ∅ |}.
Proof.
  intros Hrun Hrows.
  destruct (missing_cols (standardise_columns listings)) as [|c cs] eqn:Hm.
  - rewrite (main_completes _ _ _ _ Hm) in Hrun. injection Hrun as <-.
    unfold valid_rows, typed_frame, coerce_types. cbn [standardise_columns rows].
    rewrite Hrows. cbn [clean invalid_rows report input_rows rows_removed_invalid
                        rows_removed_duplicates validation_issues output].
    repeat match goal with |- _ /\ _ => split end; try reflexivity.
    apply tally_of_empty.
  - rewrite main_exits in Hrun by (rewrite Hm; discriminate). discriminate.
Qed.

Lemma main_on_no_rows_sample :
  let r := {| clean := [];
              report := {| input_rows := O;
                           validation_issues := (validate []).2;
                           rows_removed_invalid := O;
                           rows_removed_duplicates := O;
                           output := {| row_count := O; price := no_price; by_region := ∅;
                                        by_category := ∅; by_segment := ∅ |} |};
              invalid_rows := [] |} in
  main Sample.to_datetime Sample.to_numeric Sample.header_only Sample.twice = Completed r
  /\ clean r = [] /\ invalid_rows r = []
  /\ input_rows (report r) = O
  /\ rows_removed_invalid (report r) = O
  /\ rows_removed_duplicates (report r) = O
  /\ (forall ρ, tallied ρ -> tally_of (validation_issues (report r)) ρ = Some O)
  /\ output (report r)
     = {| row_count := O; price := no_price; by_region := ∅;
          by_category := ∅; by_segment := ∅ |}.
Proof.
  cbv zeta. split; [reflexivity|].
  exact (main_on_no_rows Sample.to_datetime Sample.to_numeric
           Sample.header_only Sample.twice _ eq_refl eq_refl).
Defined.

